(** * Compound variable-length string helpers of JHDF5 (strcpyJHDF5.c)

    A shallow embedding of the three JNI entry points
      [compoundCpyVLStr], [createVLStrFromCompound], [freeCompoundVLStr]
    together with the part of the JNI and libc interface they call.  Native
    code is modelled in a small state-and-fault monad over a record [jvm] that
    holds the native heap, the Java arrays, the outstanding critical pins and
    a trace of the calls that matter to the properties below. *)

From Stdlib Require Import ZArith Lia.
From stdpp Require Import base gmap gmultiset list strings.

#[local] Set Warnings "-clear-no-such-hyp".

Local Open Scope Z_scope.

(** ** Java strings and modified UTF-8

    A [jstring] is its sequence of UTF-16 code units; native bytes are
    integers in [0, 256). *)

Abbreviation jstring := (list Z) (only parsing).
Abbreviation bytes := (list Z) (only parsing).

(** The modified UTF-8 form of one UTF-16 code unit: one byte for
    U+0001..U+007F, two bytes for U+0000 and U+0080..U+07FF, three bytes
    otherwise. *)
Definition mutf8_unit (c : Z) : bytes :=
  if (1 <=? c) && (c <=? 0x7F) then [c]
  else if c <=? 0x7FF then
    [Z.lor 0xC0 (Z.shiftr c 6); Z.lor 0x80 (Z.land c 0x3F)]
  else
    [Z.lor 0xE0 (Z.shiftr c 12);
     Z.lor 0x80 (Z.land (Z.shiftr c 6) 0x3F);
     Z.lor 0x80 (Z.land c 0x3F)].

Definition mutf8 (s : jstring) : bytes := concat (mutf8_unit <$> s).

(** Decoding of a modified UTF-8 byte sequence, as done by [NewStringUTF]. *)
Fixpoint mutf8_decode (bs : bytes) : jstring :=
  match bs with
  | [] => []
  | b0 :: r0 =>
    if b0 <? 0x80 then b0 :: mutf8_decode r0
    else if b0 <? 0xE0 then
      match r0 with
      | b1 :: r1 =>
        Z.lor (Z.shiftl (Z.land b0 0x1F) 6) (Z.land b1 0x3F) :: mutf8_decode r1
      | [] => [b0]
      end
    else
      match r0 with
      | b1 :: b2 :: r2 =>
        Z.lor (Z.shiftl (Z.land b0 0x0F) 12)
              (Z.lor (Z.shiftl (Z.land b1 0x3F) 6) (Z.land b2 0x3F))
          :: mutf8_decode r2
      | _ => b0 :: mutf8_decode r0
      end
  end.

(** The bytes of a C string stored in a block: everything before the first
    NUL.  [None] when the block holds no NUL, so that reading the string
    would run past the end of the allocation. *)
Fixpoint c_string (blk : bytes) : option bytes :=
  match blk with
  | [] => None
  | b :: rest => if b =? 0 then Some [] else (b ::.) <$> c_string rest
  end.

(** ** Machine state *)

(** A Java [byte[]] (each element as the unsigned value of its byte) or
    [int[]]. *)
Inductive jarray :=
  | JBytes (elems : list Z)
  | JInts (elems : list Z).

Definition jarray_elems (a : jarray) : list Z :=
  match a with JBytes l => l | JInts l => l end.

Definition jarray_with (a : jarray) (l : list Z) : jarray :=
  match a with JBytes _ => JBytes l | JInts _ => JInts l end.

Inductive event :=
  | NullArgument (msg : string)
  | JNIFatalError (msg : string)
  | StringIndexOutOfBounds
  | PinRequest (arr : nat) (granted : bool)
  | PinRelease (arr : nat)
  | Calloc (size : Z) (addr : Z)
  | Free (addr : Z).

(** Undefined behaviour of the C program. *)
Inductive fault :=
  | OutOfBounds      (* access outside a pinned array or a native block *)
  | WildPointer      (* dereference of an address that is no live block *)
  | InvalidFree      (* free of an address that is no live block *)
  | BadReference.    (* a JNI reference that names no array *)

Record jvm := JVM {
  native_heap : gmap Z (list Z);   (* live malloc blocks, by base address *)
  brk : positive;                  (* next address the allocator hands out *)
  oom : bool;                      (* the allocator refuses requests *)
  java_heap : gmap nat jarray;     (* Java primitive arrays, by reference *)
  unpinnable : gset nat;           (* arrays the VM refuses to pin *)
  pinned : gmultiset nat;          (* outstanding critical pins *)
  trace : list event               (* calls made so far, oldest first *)
}.

Inductive outcome (A : Type) :=
  | Ret (a : A) (s : jvm)
  | Undefined (f : fault)
  | OutOfFuel.
Arguments Ret {A} a s.
Arguments Undefined {A} f.
Arguments OutOfFuel {A}.

Definition M (A : Type) : Type := jvm → outcome A.

Definition ret {A} (a : A) : M A := λ s, Ret a s.
Definition bind {A B} (m : M A) (k : A → M B) : M B :=
  λ s, match m s with
       | Ret a s' => k a s'
       | Undefined f => Undefined f
       | OutOfFuel => OutOfFuel
       end.
Definition crash {A} (f : fault) : M A := λ _, Undefined f.

Notation "'do' x <- m ; k" := (bind m (λ x, k))
  (at level 10, x name, m at level 100, k at level 200).
Notation "m ;; k" := (bind m (λ _, k))
  (at level 100, k at level 200, right associativity).

Definition set_trace (t : list event) (s : jvm) : jvm :=
  JVM (native_heap s) (brk s) (oom s) (java_heap s) (unpinnable s) (pinned s) t.
Definition set_native_heap (h : gmap Z (list Z)) (s : jvm) : jvm :=
  JVM h (brk s) (oom s) (java_heap s) (unpinnable s) (pinned s) (trace s).
Definition set_brk (b : positive) (s : jvm) : jvm :=
  JVM (native_heap s) b (oom s) (java_heap s) (unpinnable s) (pinned s) (trace s).
Definition set_java_heap (h : gmap nat jarray) (s : jvm) : jvm :=
  JVM (native_heap s) (brk s) (oom s) h (unpinnable s) (pinned s) (trace s).
Definition set_pinned (p : gmultiset nat) (s : jvm) : jvm :=
  JVM (native_heap s) (brk s) (oom s) (java_heap s) (unpinnable s) p (trace s).

Ltac jvm_simpl :=
  cbn [native_heap brk oom java_heap unpinnable pinned trace
       set_trace set_native_heap set_brk set_java_heap set_pinned] in *.

Definition emit (e : event) : M unit :=
  λ s, Ret tt (set_trace (trace s ++ [e]) s).

(** ** The error helpers of the library

    [h5nullArgument] and [h5JNIFatalError] are declared [extern] in the file
    and defined elsewhere in the library. *)

(** Modelled from the spec: [h5nullArgument] is the "absent argument"
    callback; it raises the error on the managed side and returns. *)
Definition h5nullArgument (msg : string) : M unit := emit (NullArgument msg).

(** Modelled from the spec: [h5JNIFatalError] is the "fatal native error"
    callback, raised when an array could not be pinned. *)
Definition h5JNIFatalError (msg : string) : M unit := emit (JNIFatalError msg).

(** ** libc *)

(** [calloc(nmemb, size)]: a fresh zero-filled block, or the null pointer
    when the allocator refuses.  Addresses are handed out upwards and never
    again; a zero-sized request still yields an address of its own. *)
Definition calloc (nmemb size : Z) : M Z := λ s,
  let n := nmemb * size in
  if oom s then Ret 0 (set_trace (trace s ++ [Calloc n 0]) s)
  else
    let p := Z.pos (brk s) in
    Ret p (set_trace (trace s ++ [Calloc n p])
             (set_brk (brk s + Z.to_pos n)
                (set_native_heap (<[p := replicate (Z.to_nat n) 0]> (native_heap s)) s))).

(** [free(p)]: nothing for the null pointer, the end of a live block
    otherwise; undefined for any other address. *)
Definition free (p : Z) : M unit := λ s,
  if p =? 0 then Ret tt (set_trace (trace s ++ [Free p]) s)
  else match native_heap s !! p with
       | Some _ =>
         Ret tt (set_trace (trace s ++ [Free p])
                   (set_native_heap (delete p (native_heap s)) s))
       | None => Undefined InvalidFree
       end.

(** A store of [data] at the start of the native block at [p]. *)
Definition native_write (p : Z) (data : bytes) : M unit := λ s,
  if p =? 0 then Undefined WildPointer
  else match native_heap s !! p with
       | Some blk =>
         if decide (length data ≤ length blk)%nat then
           Ret tt (set_native_heap
                     (<[p := data ++ drop (length data) blk]> (native_heap s)) s)
         else Undefined OutOfBounds
       | None => Undefined WildPointer
       end.

(** ** JNI

    The functions of the JNI environment the file calls, after the Java
    Native Interface specification.  An exception raised by one of them stays
    pending while native code runs on; it is recorded in the trace. *)

Definition GetStringUTFLength (str : jstring) : M Z :=
  ret (Z.of_nat (length (mutf8 str))).

(** [GetStringUTFRegion(str, start, len, buf)]: [start] and [len] count
    UTF-16 code units.  On index overflow a
    [StringIndexOutOfBoundsException] is raised and nothing is copied;
    otherwise the modified UTF-8 form of the region is copied to [buf].
    The specification does not ask for a terminator after the copy (and the
    block [compoundCpyVLStr] passes has no room for one), so none is
    written. *)
Definition GetStringUTFRegion (str : jstring) (start len : Z) (buf : Z) : M unit :=
  if (start <? 0) || (len <? 0) || (Z.of_nat (length str) <? start + len)
  then emit StringIndexOutOfBounds
  else
    match mutf8 (take (Z.to_nat len) (drop (Z.to_nat start) str)) with
    | [] => ret tt
    | data => native_write buf data
    end.

(** [NewStringUTF(bytes)]: the Java string of the NUL-terminated modified
    UTF-8 text at [bytes]; the null reference for a null pointer. *)
Definition NewStringUTF (p : Z) : M (option jstring) := λ s,
  if p =? 0 then Ret None s
  else match native_heap s !! p with
       | Some blk =>
         match c_string blk with
         | Some bs => Ret (Some (mutf8_decode bs)) s
         | None => Undefined OutOfBounds
         end
       | None => Undefined WildPointer
       end.

Definition GetArrayLength (arr : nat) : M Z := λ s,
  match java_heap s !! arr with
  | Some a => Ret (Z.of_nat (length (jarray_elems a))) s
  | None => Undefined BadReference
  end.

(** [GetPrimitiveArrayCritical(arr, NULL)]: the elements of the array for
    direct access, or the null pointer when the VM cannot pin it. *)
Definition GetPrimitiveArrayCritical (arr : nat) : M (option (list Z)) := λ s,
  match java_heap s !! arr with
  | Some a =>
    if decide (arr ∈ unpinnable s)
    then Ret None (set_trace (trace s ++ [PinRequest arr false]) s)
    else Ret (Some (jarray_elems a))
             (set_trace (trace s ++ [PinRequest arr true])
                (set_pinned (pinned s ⊎ {[+ arr +]}) s))
  | None => Undefined BadReference
  end.

Definition JNI_COMMIT : Z := 1.
Definition JNI_ABORT : Z := 2.

(** [ReleasePrimitiveArrayCritical(arr, carray, mode)]: what native code
    did to [carray] becomes the content of the array (unless [JNI_ABORT]),
    and the pin ends (unless [JNI_COMMIT]). *)
Definition ReleasePrimitiveArrayCritical (arr : nat) (carray : list Z) (mode : Z)
  : M unit := λ s,
  match java_heap s !! arr with
  | Some a =>
    let jh := if mode =? JNI_ABORT then java_heap s
              else <[arr := jarray_with a carray]> (java_heap s) in
    let pn := if mode =? JNI_COMMIT then pinned s
              else pinned s ∖ {[+ arr +]} in
    Ret tt (set_trace (trace s ++ [PinRelease arr])
              (set_pinned pn (set_java_heap jh s)))
  | None => Undefined BadReference
  end.

(** ** The three entry points

    [ptr_size] is [sizeof(void * )], the value [getPointerSize] reports.
    Pointers are stored in native byte order, taken to be little-endian.
    A pinned array is the list of its elements and an address inside it is
    its offset from [byteP]. *)

Section Codec.

Variable ptr_size : nat.

(** [Java_ch_systemsx_cisd_hdf5_hdf5lib_H5_getPointerSize]. *)
Definition getPointerSize : Z := Z.of_nat ptr_size.

Definition encode_ptr (p : Z) : bytes :=
  (λ i : nat, Z.land (Z.shiftr p (8 * Z.of_nat i)) 0xFF) <$> seq 0 ptr_size.

Definition decode_ptr (bs : bytes) : Z :=
  foldr (λ b acc, b + 256 * acc) 0 bs.

Definition slot_in_bounds (mem : bytes) (ofs : Z) : bool :=
  (0 <=? ofs) && (ofs + Z.of_nat ptr_size <=? Z.of_nat (length mem)).

(** The pointer held by the [ptr_size] bytes at [ofs]. *)
Definition slot_value (mem : bytes) (ofs : Z) : Z :=
  decode_ptr (take ptr_size (drop (Z.to_nat ofs) mem)).

(** [*(char ** )(byteP + ofs)] as an rvalue. *)
Definition load_ptr (mem : bytes) (ofs : Z) : M Z :=
  if slot_in_bounds mem ofs then ret (slot_value mem ofs)
  else crash OutOfBounds.

(** [*(char ** )(byteP + ofs) = p]. *)
Definition store_ptr (mem : bytes) (ofs : Z) (p : Z) : M bytes :=
  if slot_in_bounds mem ofs
  then ret (take (Z.to_nat ofs) mem ++ encode_ptr p
              ++ drop (Z.to_nat ofs + ptr_size) mem)
  else crash OutOfBounds.

(** [Java_ch_systemsx_cisd_hdf5_hdf5lib_H5_compoundCpyVLStr], the native
    method [compoundCpyVLStr]: an absent [jstring] or [jbyteArray] is [None]. *)
Definition compoundCpyVLStr (str : option jstring) (buf : option nat) (bufOfs : Z)
  : M Z :=
  match str with
  | None => h5nullArgument "compoundCpyVLStr:  str is NULL" ;; ret (-1)
  | Some str =>
    match buf with
    | None => h5nullArgument "compoundCpyVLStr:  buf is NULL" ;; ret (-1)
    | Some buf =>
      do len <- GetStringUTFLength str;
      do strPCpy <- calloc 1 len;
      GetStringUTFRegion str 0 len strPCpy ;;
      do byteP <- GetPrimitiveArrayCritical buf;
      match byteP with
      | None => h5JNIFatalError "compoundCpyVLStr:  buf not pinned" ;; ret (-1)
      | Some byteP =>
        do byteP <- store_ptr byteP bufOfs strPCpy;
        ReleasePrimitiveArrayCritical buf byteP 0 ;;
        ret 0
      end
    end
  end.

(** [Java_ch_systemsx_cisd_hdf5_hdf5lib_H5_createVLStrFromCompound], the
    native method [createVLStrFromCompound]. *)
Definition createVLStrFromCompound (buf : option nat) (offset : Z)
  : M (option jstring) :=
  match buf with
  | None => h5nullArgument "createVLStrFromCompound:  buf is NULL" ;; ret None
  | Some buf =>
    do byteP <- GetPrimitiveArrayCritical buf;
    match byteP with
    | None =>
      h5JNIFatalError "createVLStrFromCompound:  buf not pinned" ;; ret None
    | Some byteP =>
      do strP <- load_ptr byteP offset;
      do str <- NewStringUTF strP;
      ReleasePrimitiveArrayCritical buf byteP 0 ;;
      ret str
    end
  end.

(** The inner [for] loop: [idxP] is consumed front to back, which is
    [i = 0 .. idxLen - 1]. *)
Fixpoint free_slots (byteP : bytes) (ptr : Z) (idxP : list Z) : M unit :=
  match idxP with
  | [] => ret tt
  | idx :: rest =>
    do strP <- load_ptr byteP (ptr + idx);
    free strP ;;
    free_slots byteP ptr rest
  end.

(** The [while] loop; one unit of [fuel] per evaluation of its test. *)
Fixpoint free_records (fuel : nat) (byteP : bytes) (bufLen : Z) (idxP : list Z)
    (idxLen : Z) (recordSize : Z) (ptr : Z) : M unit :=
  match fuel with
  | O => λ _, OutOfFuel
  | S fuel =>
    if ptr <? bufLen then
      free_slots byteP ptr (take (Z.to_nat idxLen) idxP) ;;
      free_records fuel byteP bufLen idxP idxLen recordSize (ptr + recordSize)
    else ret tt
  end.

(** [Java_ch_systemsx_cisd_hdf5_hdf5lib_H5_freeCompoundVLStr], the native
    method [freeCompoundVLStr]; [fuel] bounds the evaluations of the loop
    test. *)
Definition freeCompoundVLStr (fuel : nat) (buf : option nat) (recordSize : Z)
    (vlIndices : option nat) : M Z :=
  match buf with
  | None => h5nullArgument "freeCompoundVLStr:  buf is NULL" ;; ret (-1)
  | Some buf =>
    match vlIndices with
    | None => h5nullArgument "freeCompoundVLStr:  vlIndices is NULL" ;; ret (-1)
    | Some vlIndices =>
      do idxLen <- GetArrayLength vlIndices;
      do bufLen <- GetArrayLength buf;
      do idxP <- GetPrimitiveArrayCritical vlIndices;
      match idxP with
      | None =>
        h5JNIFatalError "freeCompoundVLStr:  vlIndices not pinned" ;; ret (-1)
      | Some idxP =>
        do byteP <- GetPrimitiveArrayCritical buf;
        match byteP with
        | None =>
          ReleasePrimitiveArrayCritical vlIndices idxP 0 ;;
          h5JNIFatalError "freeCompoundVLStr:  buf not pinned" ;;
          ret (-1)
        | Some byteP =>
          free_records fuel byteP bufLen idxP idxLen recordSize 0 ;;
          ReleasePrimitiveArrayCritical vlIndices idxP 0 ;;
          ReleasePrimitiveArrayCritical buf byteP 0 ;;
          ret 0
        end
      end
    end
  end.

End Codec.

(** ** Vocabulary of the statements *)

(** Length of the array behind a reference (0 for an absent one). *)
Definition array_length (s : jvm) (arr : option nat) : Z :=
  match arr with
  | Some r =>
    match java_heap s !! r with
    | Some a => Z.of_nat (length (jarray_elems a))
    | None => 0
    end
  | None => 0
  end.

(** The slot offsets of the first [n] records of size [R], record by
    record and, within a record, in the order of [offs]. *)
Definition record_slots (n : nat) (R : Z) (offs : list Z) : list Z :=
  k ← seq 0 n; (λ o, Z.of_nat k * R + o) <$> offs.

(** The native heap after [free] was called on each of [ps] in turn;
    [None] when one of the calls is undefined. *)
Fixpoint free_all (ps : list Z) (h : gmap Z (list Z)) : option (gmap Z (list Z)) :=
  match ps with
  | [] => Some h
  | p :: ps =>
    if p =? 0 then free_all ps h
    else match h !! p with
         | Some _ => free_all ps (delete p h)
         | None => None
         end
  end.

(** Number of records the loop of [freeCompoundVLStr] visits on a buffer of
    [len] bytes: the least [n] with [len <= n * R]. *)
Definition records_visited (len R : Z) : nat := Z.to_nat ((len + R - 1) / R).

(** The copy of the text into the fresh allocation is defined: the
    allocation succeeded, or there is nothing to copy because the text is
    empty or because [GetStringUTFRegion] rejects the region. *)
Definition copy_defined (s : jvm) (str : jstring) : Prop :=
  oom s = false ∨ mutf8 str = [] ∨ (length str < length (mutf8 str))%nat.

(** What a call leaves alone on the Java side. *)
Definition java_side_kept (s s' : jvm) : Prop :=
  java_heap s' = java_heap s ∧ pinned s' = pinned s
  ∧ unpinnable s' = unpinnable s.

(** ** Sample data *)

(** The state a call leaves behind (the state it started in when it does
    not return). *)
Definition exec {A} (m : M A) (s : jvm) : jvm :=
  match m s with Ret _ s' => s' | _ => s end.

(** "héllo" and "abc" as UTF-16 code units. *)
Definition hello : jstring := [104; 233; 108; 108; 111].
Definition abc : jstring := [97; 98; 99].

(** A VM with the given arrays, an empty native heap and nothing pinned. *)
Definition jvm0 (arrays : list (nat * jarray)) : jvm :=
  JVM ∅ 4096%positive false (list_to_map arrays) ∅ ∅ [].

(** One zeroed record with a single slot. *)
Definition one_slot : jvm := jvm0 [(1%nat, JBytes (replicate 8 0))].

(** The same, with an allocator that has nothing left to give. *)
Definition exhausted : jvm :=
  JVM ∅ 4096%positive true {[1%nat := JBytes (replicate 8 0)]} ∅ ∅ [].

(** The same, with a VM that refuses to pin the buffer. *)
Definition pin_refused : jvm :=
  JVM ∅ 4096%positive false {[1%nat := JBytes (replicate 8 0)]} {[1%nat]} ∅ [].

(** Three records of 8 bytes with a string encoded in the slot at offset 0
    of each; array 2 is the offset set [0]. *)
Definition three_records : jvm :=
  exec (compoundCpyVLStr 8 (Some [99]) (Some 1%nat) 16)
    (exec (compoundCpyVLStr 8 (Some [98]) (Some 1%nat) 8)
       (exec (compoundCpyVLStr 8 (Some [97]) (Some 1%nat) 0)
          (jvm0 [(1%nat, JBytes (replicate 24 0)); (2%nat, JInts [0])]))).

(** A buffer of 20 bytes read with records of 12 bytes: one full record and
    a tail of 8 bytes, with a string encoded at offset 0 of either. *)
Definition record_and_tail : jvm :=
  exec (compoundCpyVLStr 8 (Some [98]) (Some 1%nat) 12)
    (exec (compoundCpyVLStr 8 (Some [97]) (Some 1%nat) 0)
       (jvm0 [(1%nat, JBytes (replicate 20 0)); (2%nat, JInts [0])])).

(** A VM that can neither allocate nor pin the buffer. *)
Definition exhausted_refused : jvm :=
  JVM ∅ 4096%positive true {[1%nat := JBytes (replicate 8 0)]} {[1%nat]} ∅ [].

(** A buffer of the 16 distinct bytes 1 .. 16, to hold a slot in its
    middle. *)
Definition framed_slot : jvm := jvm0 [(1%nat, JBytes (Z.of_nat <$> seq 1 16))].

(** One record and an empty offset set. *)
Definition no_slots : jvm :=
  jvm0 [(1%nat, JBytes (replicate 8 0)); (2%nat, JInts [])].

(** The contents of the two sample buffers once the strings are encoded. *)
Definition three_records_mem : list Z :=
  encode_ptr 8 4096 ++ encode_ptr 8 4097 ++ encode_ptr 8 4098.
Definition record_and_tail_mem : list Z :=
  encode_ptr 8 4096 ++ [0; 0; 0; 0] ++ encode_ptr 8 4097.

(** ** Vocabulary of the further properties *)

(** A UTF-16 code unit. *)
Definition jchar (c : Z) : Prop := 0 ≤ c < 0x10000.

(** A code unit whose modified UTF-8 form is a single byte. *)
Definition single_byte (c : Z) : Prop := 1 ≤ c ≤ 0x7F.

(** An address fits in a pointer of [W] bytes. *)
Definition fits_pointer (W : nat) (p : Z) : Prop := 0 ≤ p < 2 ^ (8 * Z.of_nat W).

(** A decidable fact about closed data, settled by evaluation. *)
Ltac by_computation := apply (bool_decide_unpack _); vm_compute; exact I.

(** ** More sample data *)

(** [one_slot] after "abc", and after "héllo", was encoded at offset 0. *)
Definition after_abc : jvm :=
  exec (compoundCpyVLStr 8 (Some abc) (Some 1%nat) 0) one_slot.
Definition after_hello : jvm :=
  exec (compoundCpyVLStr 8 (Some hello) (Some 1%nat) 0) one_slot.

(** A record whose slot holds the address of a terminated copy of
    "héllo", as the HDF5 library leaves it after a read. *)
Definition hello_stored : jvm :=
  JVM {[4096 := mutf8 hello ++ [0]]} 4103%positive false
      {[1%nat := JBytes (encode_ptr 8 4096)]} ∅ ∅ [].

(** One record with an offset set, and a VM that refuses to pin the
    buffer. *)
Definition release_refused : jvm :=
  JVM ∅ 4096%positive false
      (list_to_map [(1%nat, JBytes (replicate 8 0)); (2%nat, JInts [0])])
      {[1%nat]} ∅ [].

(** Two zeroed records with the offset set [0]. *)
Definition null_slots : jvm :=
  jvm0 [(1%nat, JBytes (replicate 16 0)); (2%nat, JInts [0])].

(** One zeroed record with the offset set [0]. *)
Definition one_record : jvm :=
  jvm0 [(1%nat, JBytes (replicate 8 0)); (2%nat, JInts [0])].

(** [three_records] after its strings were released. *)
Definition three_released : jvm :=
  exec (freeCompoundVLStr 8 4 (Some 1%nat) 8 (Some 2%nat)) three_records.

(** Two slots side by side in one record of 16 bytes. *)
Definition two_slots : jvm := jvm0 [(1%nat, JBytes (replicate 16 0))].

(** * Properties *)

(** ** Absent arguments *)

(** C5: an absent text, buffer or offset collection is reported before
    anything else happens: the call returns the failure value, and the only
    thing it did is raise the absent-argument error, so that no pin request,
    array access or allocation was made. *)
Theorem absent_argument_reported_first (ptr_size : nat) (s : jvm) :
  (∀ buf ofs,
      compoundCpyVLStr ptr_size None buf ofs s
      = Ret (-1) (set_trace (trace s ++ [NullArgument "compoundCpyVLStr:  str is NULL"]) s))
  ∧ (∀ str ofs,
      compoundCpyVLStr ptr_size (Some str) None ofs s
      = Ret (-1) (set_trace (trace s ++ [NullArgument "compoundCpyVLStr:  buf is NULL"]) s))
  ∧ (∀ ofs,
      createVLStrFromCompound ptr_size None ofs s
      = Ret None (set_trace (trace s ++ [NullArgument "createVLStrFromCompound:  buf is NULL"]) s))
  ∧ (∀ fuel recordSize idx,
      freeCompoundVLStr ptr_size fuel None recordSize idx s
      = Ret (-1) (set_trace (trace s ++ [NullArgument "freeCompoundVLStr:  buf is NULL"]) s))
  ∧ (∀ fuel recordSize buf,
      freeCompoundVLStr ptr_size fuel (Some buf) recordSize None s
      = Ret (-1) (set_trace (trace s ++ [NullArgument "freeCompoundVLStr:  vlIndices is NULL"]) s)).
Proof. repeat split; reflexivity. Qed.

(** ** Reasoning about runs *)

Lemma bind_Ret {A B} (m : M A) (k : A → M B) s b s' :
  bind m k s = Ret b s' ↔ ∃ a s1, m s = Ret a s1 ∧ k a s1 = Ret b s'.
Proof.
  unfold bind. split.
  - destruct (m s) as [a s1| |]; [eauto | discriminate | discriminate].
  - intros (a & s1 & -> & Hk). exact Hk.
Qed.

Lemma bind_run {A B} (m : M A) (k : A → M B) s a s1 :
  m s = Ret a s1 → bind m k s = k a s1.
Proof. unfold bind. by intros ->. Qed.

Lemma ret_Ret {A} (a b : A) s s' : ret a s = Ret b s' ↔ a = b ∧ s = s'.
Proof. unfold ret. split; [intros [= -> ->] | intros [-> ->]]; done. Qed.

Lemma java_side_kept_refl s : java_side_kept s s.
Proof. by repeat split. Qed.

Lemma java_side_kept_trans s1 s2 s3 :
  java_side_kept s1 s2 → java_side_kept s2 s3 → java_side_kept s1 s3.
Proof. intros (?&?&?) (?&?&?). repeat split; congruence. Qed.

Lemma emit_Ret e u s s' :
  emit e s = Ret u s' ↔ s' = set_trace (trace s ++ [e]) s.
Proof. unfold emit. split; [by intros [= _ <-] | intros ->; by destruct u]. Qed.

Lemma free_kept p u s s' : free p s = Ret u s' → java_side_kept s s'.
Proof.
  unfold free. destruct (p =? 0); [intros [= _ <-]; by repeat split|].
  destruct (native_heap s !! p); [|done]. intros [= _ <-]. by repeat split.
Qed.

Lemma calloc_kept n m p s s' : calloc n m s = Ret p s' → java_side_kept s s'.
Proof.
  unfold calloc. destruct (oom s); intros [= _ <-]; by repeat split.
Qed.

Lemma native_write_kept p data u s s' :
  native_write p data s = Ret u s' → java_side_kept s s'.
Proof.
  unfold native_write. destruct (p =? 0); [done|].
  destruct (native_heap s !! p); [|done]. case_decide; [|done].
  intros [= _ <-]. by repeat split.
Qed.

Lemma GetStringUTFRegion_kept str start len buf u s s' :
  GetStringUTFRegion str start len buf s = Ret u s' → java_side_kept s s'.
Proof.
  unfold GetStringUTFRegion.
  destruct (_ || _).
  - intros ->%emit_Ret. by repeat split.
  - destruct (mutf8 _); [intros [_ <-]%ret_Ret; apply java_side_kept_refl|].
    apply native_write_kept.
Qed.

Lemma load_ptr_Ret W mem ofs p s s' :
  load_ptr W mem ofs s = Ret p s' ↔
  slot_in_bounds W mem ofs = true
  ∧ p = slot_value W mem ofs ∧ s' = s.
Proof.
  unfold load_ptr. destruct (slot_in_bounds W mem ofs).
  - rewrite ret_Ret. naive_solver.
  - unfold crash. naive_solver.
Qed.

Lemma store_ptr_Ret W mem ofs p mem' s s' :
  store_ptr W mem ofs p s = Ret mem' s' ↔
  slot_in_bounds W mem ofs = true
  ∧ mem' = take (Z.to_nat ofs) mem ++ encode_ptr W p
             ++ drop (Z.to_nat ofs + W) mem
  ∧ s' = s.
Proof.
  unfold store_ptr. destruct (slot_in_bounds W mem ofs).
  - rewrite ret_Ret. naive_solver.
  - unfold crash. naive_solver.
Qed.

Lemma free_slots_kept W byteP ptr idxP u s s' :
  free_slots W byteP ptr idxP s = Ret u s' → java_side_kept s s'.
Proof.
  revert s. induction idxP as [|idx rest IH]; intros s; simpl.
  - intros [_ <-]%ret_Ret. apply java_side_kept_refl.
  - intros (p & s1 & (_ & _ & ->)%load_ptr_Ret & (? & s2 & Hf & Hr)%bind_Ret)%bind_Ret.
    eapply java_side_kept_trans; [by eapply free_kept | by eapply IH].
Qed.

Lemma free_records_kept W fuel byteP bufLen idxP idxLen R ptr u s s' :
  free_records W fuel byteP bufLen idxP idxLen R ptr s = Ret u s' →
  java_side_kept s s'.
Proof.
  revert ptr s. induction fuel as [|fuel IH]; intros ptr s; simpl; [done|].
  destruct (ptr <? bufLen).
  - intros (? & s1 & Hs & Hr)%bind_Ret.
    eapply java_side_kept_trans; [by eapply free_slots_kept | by eapply IH].
  - intros [_ <-]%ret_Ret. apply java_side_kept_refl.
Qed.

Lemma GetArrayLength_Ret arr n s s' :
  GetArrayLength arr s = Ret n s' ↔
  ∃ a, java_heap s !! arr = Some a
       ∧ n = Z.of_nat (length (jarray_elems a)) ∧ s' = s.
Proof.
  unfold GetArrayLength. destruct (java_heap s !! arr); naive_solver.
Qed.

Lemma pin_Ret arr r s s' :
  GetPrimitiveArrayCritical arr s = Ret r s' ↔
  ∃ a, java_heap s !! arr = Some a ∧
    ((arr ∈ unpinnable s ∧ r = None
      ∧ s' = set_trace (trace s ++ [PinRequest arr false]) s)
     ∨ ((arr ∉ unpinnable s) ∧ r = Some (jarray_elems a)
        ∧ s' = set_trace (trace s ++ [PinRequest arr true])
                 (set_pinned (pinned s ⊎ {[+ arr +]}) s))).
Proof.
  unfold GetPrimitiveArrayCritical.
  destruct (java_heap s !! arr); [|naive_solver].
  case_decide; naive_solver.
Qed.

Lemma release_Ret arr carray u s s' :
  ReleasePrimitiveArrayCritical arr carray 0 s = Ret u s' ↔
  ∃ a, java_heap s !! arr = Some a ∧
    s' = set_trace (trace s ++ [PinRelease arr])
           (set_pinned (pinned s ∖ {[+ arr +]})
              (set_java_heap (<[arr := jarray_with a carray]> (java_heap s)) s)).
Proof.
  unfold ReleasePrimitiveArrayCritical.
  destruct (java_heap s !! arr); [|naive_solver].
  simpl. destruct u. naive_solver.
Qed.

(** ** Pins *)

(** C7: whatever a call pinned it has released by the time it returns,
    with success or with failure: the outstanding pins after the call are
    those before it. *)
Theorem pins_released_on_return (ptr_size : nat) (s : jvm) :
  (∀ str buf ofs,
      match compoundCpyVLStr ptr_size str buf ofs s with
      | Ret _ s' => pinned s' = pinned s
      | _ => True
      end)
  ∧ (∀ buf ofs,
      match createVLStrFromCompound ptr_size buf ofs s with
      | Ret _ s' => pinned s' = pinned s
      | _ => True
      end)
  ∧ (∀ fuel buf recordSize idx,
      match freeCompoundVLStr ptr_size fuel buf recordSize idx s with
      | Ret _ s' => pinned s' = pinned s
      | _ => True
      end).
Proof.
  split; [|split].
  - intros str buf ofs.
    destruct (compoundCpyVLStr _ _ _ _ _) as [v s'| |] eqn:E; [|done..].
    unfold compoundCpyVLStr in E.
    destruct str as [str|]; [|by injection E as _ <-].
    destruct buf as [buf|]; [|by injection E as _ <-].
    apply bind_Ret in E as (len & s1 & [_ <-]%ret_Ret & E).
    apply bind_Ret in E as (p & s2 & (_ & Hp & _)%calloc_kept & E).
    apply bind_Ret in E as (? & s3 & (_ & Hr & _)%GetStringUTFRegion_kept & E).
    apply bind_Ret in E as (byteP & s4 & (a & Ha & Hpin)%pin_Ret & E).
    destruct Hpin as [(_ & -> & ->)|(_ & -> & ->)].
    + apply bind_Ret in E as (? & s5 & ->%emit_Ret & [_ <-]%ret_Ret).
      simpl. congruence.
    + apply bind_Ret in E as (mem & s5 & (_ & _ & ->)%store_ptr_Ret & E).
      apply bind_Ret in E as (? & s6 & (a' & _ & ->)%release_Ret & [_ <-]%ret_Ret).
      simpl. rewrite Hr, Hp. multiset_solver.
  - intros buf ofs.
    destruct (createVLStrFromCompound _ _ _ _) as [v s'| |] eqn:E; [|done..].
    unfold createVLStrFromCompound in E.
    destruct buf as [buf|]; [|by injection E as _ <-].
    apply bind_Ret in E as (byteP & s1 & (a & Ha & Hpin)%pin_Ret & E).
    destruct Hpin as [(_ & -> & ->)|(_ & -> & ->)].
    + apply bind_Ret in E as (? & s5 & ->%emit_Ret & [_ <-]%ret_Ret). done.
    + apply bind_Ret in E as (p & s2 & (_ & _ & ->)%load_ptr_Ret & E).
      apply bind_Ret in E as (str & s3 & Hn & E).
      assert (s3 = set_trace (trace s ++ [PinRequest buf true])
                     (set_pinned (pinned s ⊎ {[+ buf +]}) s)) as ->.
      { unfold NewStringUTF in Hn. destruct (p =? 0); [by injection Hn|].
        simpl in Hn. destruct (native_heap s !! p); [|done].
        destruct (c_string _); [by injection Hn | done]. }
      apply bind_Ret in E as (? & s6 & (a' & _ & ->)%release_Ret & [_ <-]%ret_Ret).
      simpl. multiset_solver.
  - intros fuel buf R idx.
    destruct (freeCompoundVLStr _ _ _ _ _ _) as [v s'| |] eqn:E; [|done..].
    unfold freeCompoundVLStr in E.
    destruct buf as [buf|]; [|by injection E as _ <-].
    destruct idx as [idx|]; [|by injection E as _ <-].
    apply bind_Ret in E as (idxLen & s1 & (? & _ & _ & ->)%GetArrayLength_Ret & E).
    apply bind_Ret in E as (bufLen & s1 & (? & _ & _ & ->)%GetArrayLength_Ret & E).
    apply bind_Ret in E as (idxP & s1 & (a & Ha & Hpin)%pin_Ret & E).
    destruct Hpin as [(_ & -> & ->)|(_ & -> & ->)].
    { apply bind_Ret in E as (? & s5 & ->%emit_Ret & [_ <-]%ret_Ret). done. }
    apply bind_Ret in E as (byteP & s2 & (b & Hb & Hpin)%pin_Ret & E).
    destruct Hpin as [(_ & -> & ->)|(_ & -> & ->)].
    + apply bind_Ret in E as (? & s6 & (a' & _ & ->)%release_Ret & E).
      apply bind_Ret in E as (? & s7 & ->%emit_Ret & [_ <-]%ret_Ret).
      simpl. multiset_solver.
    + apply bind_Ret in E as (? & s3 & (_ & Hp & _)%free_records_kept & E).
      apply bind_Ret in E as (? & s6 & (a' & _ & ->)%release_Ret & E).
      apply bind_Ret in E as (? & s7 & (b' & _ & ->)%release_Ret & [_ <-]%ret_Ret).
      simpl. rewrite Hp. simpl. multiset_solver.
Qed.

(** ** The release loops *)

Lemma record_slots_S ptr n R offs :
  (λ x, ptr + x) <$> record_slots (S n) R offs
  = ((λ o, ptr + o) <$> offs) ++ ((λ x, (ptr + R) + x) <$> record_slots n R offs).
Proof.
  unfold record_slots. rewrite <- cons_seq, bind_cons, fmap_app. f_equal.
  - rewrite <- list_fmap_compose. apply list_fmap_ext. intros _ o _. simpl. lia.
  - generalize 0%nat. induction n as [|n IH]; intros j; [done|].
    rewrite <- !cons_seq, !bind_cons, !fmap_app, IH. f_equal.
    rewrite <- !list_fmap_compose. apply list_fmap_ext. intros _ o _. simpl. lia.
Qed.

Lemma length_record_slots n R offs :
  length (record_slots n R offs) = (n * length offs)%nat.
Proof.
  unfold record_slots. generalize 0%nat.
  induction n as [|n IH]; intros j; [done|].
  rewrite <- cons_seq, bind_cons, length_app, length_fmap, IH. lia.
Qed.

Lemma free_Ret p u s s' :
  free p s = Ret u s' ↔
  ∃ h', free_all [p] (native_heap s) = Some h'
        ∧ s' = set_trace (trace s ++ [Free p]) (set_native_heap h' s).
Proof.
  unfold free. simpl. destruct u. destruct (p =? 0).
  - split; [intros [= <-]; eauto | by intros (h' & [= <-] & ->)].
  - destruct (native_heap s !! p); [|naive_solver].
    split; [intros [= <-]; eauto | by intros (h' & [= <-] & ->)].
Qed.

Lemma free_all_app ps qs h :
  free_all (ps ++ qs) h = free_all ps h ≫= free_all qs.
Proof.
  revert h. induction ps as [|p ps IH]; intros h; simpl; [done|].
  destruct (p =? 0); [done|]. by destruct (h !! p).
Qed.

Lemma free_slots_Ret W mem ptr offs u s s' :
  free_slots W mem ptr offs s = Ret u s' ↔
  Forall (λ ofs, slot_in_bounds W mem ofs = true) ((λ o, ptr + o) <$> offs)
  ∧ ∃ h', free_all (slot_value W mem <$> ((λ o, ptr + o) <$> offs))
            (native_heap s) = Some h'
          ∧ s' = set_trace
                   (trace s ++ (Free <$> (slot_value W mem <$> ((λ o, ptr + o) <$> offs))))
                   (set_native_heap h' s).
Proof.
  revert s. induction offs as [|o offs IH]; intros s; simpl.
  - rewrite ret_Ret. destruct u. split.
    + intros [_ <-]. split; [constructor|]. exists (native_heap s).
      split; [done|]. rewrite app_nil_r. by destruct s.
    + intros (_ & h' & [= <-] & ->). split; [done|].
      rewrite app_nil_r. by destruct s.
  - rewrite bind_Ret. setoid_rewrite load_ptr_Ret.
    setoid_rewrite bind_Ret. setoid_rewrite free_Ret. setoid_rewrite IH.
    rewrite Forall_cons. simpl free_all at 1.
    split.
    + intros (p & s1 & (Hb & -> & ->) & [] & s2 & (h1 & Hh1 & ->) & Hall & h2 & Hh2 & ->).
      split; [done|]. exists h2. simpl in Hh2 |- *. split.
      * destruct (_ =? 0); [by injection Hh1 as <-|].
        destruct (native_heap s !! _); [by injection Hh1 as <-|done].
      * by rewrite <- app_assoc.
    + intros ((Hb & Hall) & h2 & Hh2 & ->).
      exists (slot_value W mem (ptr + o)), s. split; [done|].
      exists tt.
      set (p := slot_value W mem (ptr + o)) in *.
      assert (∃ h1, free_all [p] (native_heap s) = Some h1
                    ∧ free_all (slot_value W mem <$> ((λ o, ptr + o) <$> offs)) h1 = Some h2)
        as (h1 & Hh1 & Hh12).
      { simpl. destruct (p =? 0); [eauto|].
        destruct (native_heap s !! p); [eauto|done]. }
      eexists. split; [eauto|]. split; [done|].
      exists h2. split; [done|]. simpl. by rewrite <- app_assoc.
Qed.

Lemma free_records_Ret W fuel mem bufLen idxP idxLen R ptr u s s' :
  free_records W fuel mem bufLen idxP idxLen R ptr s = Ret u s' ↔
  ∃ n : nat,
    (n < fuel)%nat
    ∧ (∀ k : nat, (k < n)%nat → ptr + Z.of_nat k * R < bufLen)
    ∧ bufLen ≤ ptr + Z.of_nat n * R
    ∧ let slots := (λ x, ptr + x)
                     <$> record_slots n R (take (Z.to_nat idxLen) idxP) in
      Forall (λ ofs, slot_in_bounds W mem ofs = true) slots
      ∧ ∃ h', free_all (slot_value W mem <$> slots) (native_heap s) = Some h'
              ∧ s' = set_trace (trace s ++ (Free <$> (slot_value W mem <$> slots)))
                       (set_native_heap h' s).
Proof.
  revert ptr s. induction fuel as [|fuel IH]; intros ptr s; simpl.
  - split; [done | intros (n & ? & _); lia].
  - destruct (ptr <? bufLen) eqn:Hlt.
    + apply Z.ltb_lt in Hlt.
      rewrite bind_Ret. setoid_rewrite free_slots_Ret. setoid_rewrite IH.
      split.
      * intros ([] & s1 & (Hb1 & h1 & Hh1 & ->) & n & Hn & Hk & Hstop & Hb2 & h2 & Hh2 & ->).
        exists (S n). split; [lia|]. split.
        { intros [|k] ?; [lia|]. specialize (Hk k). lia. }
        split; [lia|]. rewrite record_slots_S. simpl.
        split; [by apply Forall_app|]. exists h2.
        rewrite !fmap_app, free_all_app, Hh1. simpl in Hh2 |- *.
        split; [done|]. by rewrite <- app_assoc.
      * intros ([|n] & Hn & Hk & Hstop & Hrest); [lia|].
        rewrite record_slots_S in Hrest. simpl in Hrest.
        destruct Hrest as ((Hb1 & Hb2)%Forall_app & h2 & Hh2 & ->).
        rewrite !fmap_app, free_all_app in Hh2.
        destruct (free_all _ (native_heap s)) as [h1|] eqn:Hh1; [|done].
        simpl in Hh2.
        exists tt. eexists. split; [split; [done|]; eauto|].
        exists n. split; [lia|]. split.
        { intros k ?. specialize (Hk (S k)). lia. }
        split; [lia|]. simpl. split; [done|]. exists h2. split; [done|].
        by rewrite !fmap_app, <- app_assoc.
    + apply Z.ltb_ge in Hlt. rewrite ret_Ret. destruct u. split.
      * intros [_ <-]. exists 0%nat. split; [lia|]. split; [intros; lia|].
        split; [lia|]. simpl. split; [constructor|]. exists (native_heap s).
        split; [done|]. rewrite app_nil_r. by destruct s.
      * intros ([|n] & Hn & Hk & Hstop & Hrest).
        -- simpl in Hrest. destruct Hrest as (_ & h' & [= <-] & ->).
           split; [done|]. rewrite app_nil_r. by destruct s.
        -- specialize (Hk 0%nat). lia.
Qed.

Lemma jarray_with_elems a : jarray_with a (jarray_elems a) = a.
Proof. by destruct a. Qed.

Lemma unpin_both (X : gmultiset nat) i b :
  (X ⊎ {[+ i +]} ⊎ {[+ b +]}) ∖ {[+ i +]} ∖ {[+ b +]} = X.
Proof. multiset_solver. Qed.

Lemma record_slots_from_0 n R offs :
  (λ x, 0 + x) <$> record_slots n R offs = record_slots n R offs.
Proof. rewrite <- (list_fmap_id (record_slots n R offs)) at 2. done. Qed.

Lemma jvm_eq s1 s2 :
  native_heap s1 = native_heap s2 → brk s1 = brk s2 → oom s1 = oom s2 →
  java_heap s1 = java_heap s2 → unpinnable s1 = unpinnable s2 →
  pinned s1 = pinned s2 → trace s1 = trace s2 → s1 = s2.
Proof. destruct s1, s2. cbn. congruence. Qed.

(** A successful [freeCompoundVLStr], in full. *)
Lemma freeCompoundVLStr_Ret0 W fuel buf idx R s s' a b :
  java_heap s !! buf = Some a → java_heap s !! idx = Some b →
  freeCompoundVLStr W fuel (Some buf) R (Some idx) s = Ret 0 s' ↔
  (idx ∉ unpinnable s) ∧ (buf ∉ unpinnable s) ∧
  ∃ n : nat,
    (n < fuel)%nat
    ∧ (∀ k : nat, (k < n)%nat → Z.of_nat k * R < Z.of_nat (length (jarray_elems a)))
    ∧ Z.of_nat (length (jarray_elems a)) ≤ Z.of_nat n * R
    ∧ let slots := record_slots n R (jarray_elems b) in
      Forall (λ ofs, slot_in_bounds W (jarray_elems a) ofs = true) slots
      ∧ ∃ h', free_all (slot_value W (jarray_elems a) <$> slots) (native_heap s)
              = Some h'
              ∧ s' = set_trace
                       (trace s ++ [PinRequest idx true; PinRequest buf true]
                          ++ (Free <$> (slot_value W (jarray_elems a) <$> slots))
                          ++ [PinRelease idx; PinRelease buf])
                       (set_native_heap h' s).
Proof.
  intros Ha Hb. unfold freeCompoundVLStr.
  rewrite bind_Ret. setoid_rewrite GetArrayLength_Ret.
  split.
  - intros (idxLen & s1 & (b' & Hb' & -> & ->) & E).
    apply bind_Ret in E as (bufLen & s1 & (a' & Ha' & -> & ->)%GetArrayLength_Ret & E).
    assert (a' = a) as -> by congruence. assert (b' = b) as -> by congruence.
    apply bind_Ret in E as (idxP & s1 & (b' & Hb'' & Hpin)%pin_Ret & E).
    destruct Hpin as [(_ & -> & ->)|(Hi & -> & ->)].
    { by apply bind_Ret in E as (? & s5 & ->%emit_Ret & [? _]%ret_Ret). }
    assert (b' = b) as -> by congruence.
    apply bind_Ret in E as (byteP & s2 & (a' & Ha'' & Hpin)%pin_Ret & E).
    simpl in Ha''. assert (a' = a) as -> by congruence.
    destruct Hpin as [(_ & -> & ->)|(Hu & -> & ->)].
    { apply bind_Ret in E as (? & s6 & _ & E).
      by apply bind_Ret in E as (? & s7 & _ & [? _]%ret_Ret). }
    simpl in Hu.
    apply bind_Ret in E as ([] & s3 & Hloop & E).
    apply free_records_Ret in Hloop
      as (n & Hn & Hk & Hstop & Hbnd & h' & Hh' & ->).
    rewrite Nat2Z.id, firstn_all, record_slots_from_0 in Hbnd, Hh'.
    rewrite Nat2Z.id, firstn_all, record_slots_from_0 in E.
    apply bind_Ret in E as (? & s6 & (b' & Hb3 & ->)%release_Ret & E).
    simpl in Hb3. assert (b' = b) as -> by congruence.
    apply bind_Ret in E as (? & s7 & (a' & Ha3 & ->)%release_Ret & [_ <-]%ret_Ret).
    simpl in Ha3. rewrite jarray_with_elems, (insert_id _ _ _ Hb) in Ha3.
    assert (a' = a) as -> by congruence.
    split; [done|]. split; [done|]. exists n.
    split; [done|]. split; [intros k ?; specialize (Hk k); lia|].
    split; [lia|]. simpl. split; [done|]. exists h'. split; [done|].
    apply jvm_eq; jvm_simpl; try done.
    + by rewrite !jarray_with_elems, (insert_id _ _ _ Hb), (insert_id _ _ _ Ha).
    + apply unpin_both.
    + by rewrite <- !app_assoc.
  - intros (Hi & Hu & n & Hn & Hk & Hstop & Hbnd & h' & Hh' & ->).
    exists (Z.of_nat (length (jarray_elems b))), s. split; [eauto|].
    apply bind_Ret. exists (Z.of_nat (length (jarray_elems a))), s.
    split; [apply GetArrayLength_Ret; eauto|].
    apply bind_Ret. eexists _, _. split; [apply pin_Ret; eauto 10|].
    apply bind_Ret. eexists _, _. split; [apply pin_Ret; eauto 10|].
    apply bind_Ret. exists tt. eexists. split.
    { apply free_records_Ret. exists n. split; [done|].
      split; [intros k ?; specialize (Hk k); lia|]. split; [lia|].
      rewrite Nat2Z.id, firstn_all, record_slots_from_0.
      simpl. split; [done|]. eauto. }
    apply bind_Ret. exists tt. eexists. split; [apply release_Ret; eauto|].
    apply bind_Ret. exists tt. eexists. split.
    { apply release_Ret. exists a. split; [|done].
      simpl. by rewrite jarray_with_elems, (insert_id _ _ _ Hb). }
    apply ret_Ret. split; [done|].
    apply jvm_eq; jvm_simpl; try done.
    + by rewrite !jarray_with_elems, (insert_id _ _ _ Hb), (insert_id _ _ _ Ha).
    + apply unpin_both.
    + by rewrite <- !app_assoc.
Qed.

(** ** Fuel *)

Lemma bind_fuel {A B} (m : M A) (k : A → M B) s :
  m s ≠ OutOfFuel → (∀ a s1, m s = Ret a s1 → k a s1 ≠ OutOfFuel) →
  bind m k s ≠ OutOfFuel.
Proof. unfold bind. destruct (m s); naive_solver. Qed.

Lemma bind_ext {A B} (m : M A) (k1 k2 : A → M B) s :
  (∀ a s1, m s = Ret a s1 → k1 a s1 = k2 a s1) → bind m k1 s = bind m k2 s.
Proof. unfold bind. destruct (m s); naive_solver. Qed.

Lemma load_ptr_fuel W mem ofs s : load_ptr W mem ofs s ≠ OutOfFuel.
Proof. unfold load_ptr. by destruct (slot_in_bounds W mem ofs). Qed.

Lemma free_fuel p s : free p s ≠ OutOfFuel.
Proof.
  unfold free. destruct (p =? 0); [done|]. by destruct (native_heap s !! p).
Qed.

Lemma GetArrayLength_fuel arr s : GetArrayLength arr s ≠ OutOfFuel.
Proof. unfold GetArrayLength. by destruct (java_heap s !! arr). Qed.

Lemma pin_fuel arr s : GetPrimitiveArrayCritical arr s ≠ OutOfFuel.
Proof.
  unfold GetPrimitiveArrayCritical. destruct (java_heap s !! arr); [|done].
  by case_decide.
Qed.

Lemma release_fuel arr carray mode s :
  ReleasePrimitiveArrayCritical arr carray mode s ≠ OutOfFuel.
Proof.
  unfold ReleasePrimitiveArrayCritical. by destruct (java_heap s !! arr).
Qed.

Lemma free_slots_fuel W mem ptr offs s : free_slots W mem ptr offs s ≠ OutOfFuel.
Proof.
  revert s. induction offs as [|o offs IH]; intros s; simpl; [done|].
  apply bind_fuel; [apply load_ptr_fuel|]. intros p s1 _.
  apply bind_fuel; [apply free_fuel|]. intros _ s2 _. apply IH.
Qed.

Lemma visits_step len R ptr :
  0 < R → ptr < len →
  Z.to_nat ((len - ptr + R - 1) / R)
  = S (Z.to_nat ((len - (ptr + R) + R - 1) / R)).
Proof.
  intros HR Hlt.
  replace (len - ptr + R - 1) with ((len - (ptr + R) + R - 1) + 1 * R) by lia.
  rewrite Z.div_add by lia.
  rewrite Z2Nat.inj_add, Nat.add_1_r; [done| |lia].
  apply Z.div_pos; lia.
Qed.

Lemma free_records_enough_fuel W fuel mem bufLen idxP idxLen R ptr s :
  0 < R → (Z.to_nat ((bufLen - ptr + R - 1) / R) < fuel)%nat →
  free_records W fuel mem bufLen idxP idxLen R ptr s ≠ OutOfFuel.
Proof.
  intros HR. revert ptr s. induction fuel as [|fuel IH]; intros ptr s Hf; [lia|].
  simpl. destruct (ptr <? bufLen) eqn:Hlt; [|done].
  apply Z.ltb_lt in Hlt.
  apply bind_fuel; [apply free_slots_fuel|]. intros _ s1 _. apply IH.
  rewrite (visits_step bufLen R ptr) in Hf by done. lia.
Qed.

Lemma free_records_more_fuel W fuel fuel' mem bufLen idxP idxLen R ptr s :
  free_records W fuel mem bufLen idxP idxLen R ptr s ≠ OutOfFuel →
  (fuel ≤ fuel')%nat →
  free_records W fuel' mem bufLen idxP idxLen R ptr s
  = free_records W fuel mem bufLen idxP idxLen R ptr s.
Proof.
  revert fuel' ptr s. induction fuel as [|fuel IH]; intros fuel' ptr s; [done|].
  intros Hne Hle. destruct fuel' as [|fuel']; [lia|]. simpl in *.
  destruct (ptr <? bufLen); [|done].
  unfold bind in *. destruct (free_slots _ _ _ _ s) as [[] s1| |]; [|done..].
  apply IH; [done|lia].
Qed.

Lemma records_visited_le len R :
  0 < R → 0 ≤ len → (records_visited len R ≤ Z.to_nat len)%nat.
Proof.
  intros HR Hlen. unfold records_visited. apply Z2Nat.inj_le; [|lia|].
  - apply Z.div_pos; lia.
  - apply Z.lt_succ_r, Z.div_lt_upper_bound; nia.
Qed.

Lemma array_length_nonneg s arr : 0 ≤ array_length s arr.
Proof.
  unfold array_length. destruct arr as [r|]; [|done].
  destruct (java_heap s !! r); lia.
Qed.

(** C8: for a positive record size [freeCompoundVLStr] terminates, whatever
    the buffer and the offsets: the loop test is evaluated at most once more
    than there are records to visit, a number bounded by the length of the
    buffer, and any larger amount of fuel gives the same outcome. *)
Theorem freeCompoundVLStr_terminates (ptr_size : nat) (s : jvm)
    (buf : option nat) (recordSize : Z) (vlIndices : option nat) :
  0 < recordSize →
  let visits := records_visited (array_length s buf) recordSize in
  (visits ≤ Z.to_nat (array_length s buf))%nat
  ∧ ∀ fuel, (visits < fuel)%nat →
      freeCompoundVLStr ptr_size fuel buf recordSize vlIndices s ≠ OutOfFuel
      ∧ freeCompoundVLStr ptr_size fuel buf recordSize vlIndices s
        = freeCompoundVLStr ptr_size (S visits) buf recordSize vlIndices s.
Proof.
  intros HR visits.
  split; [apply records_visited_le; [done | apply array_length_nonneg]|].
  intros fuel Hfuel. subst visits.
  unfold freeCompoundVLStr. destruct buf as [buf|]; [|by split].
  destruct vlIndices as [idx|]; [|by split].
  assert (∀ bufLen s1 s2 byteP idxP idxLen s3,
    GetArrayLength buf s1 = Ret bufLen s2 → java_heap s1 = java_heap s →
    free_records ptr_size fuel byteP bufLen idxP idxLen recordSize 0 s3
    = free_records ptr_size (S (records_visited (array_length s (Some buf)) recordSize))
        byteP bufLen idxP idxLen recordSize 0 s3
    ∧ free_records ptr_size fuel byteP bufLen idxP idxLen recordSize 0 s3
      ≠ OutOfFuel) as Hloop.
  { intros bufLen s1 s2 byteP idxP idxLen s3 (a & Ha & -> & _)%GetArrayLength_Ret Hs.
    unfold array_length in *. rewrite <- Hs, Ha in *.
    assert (free_records ptr_size
              (S (records_visited (Z.of_nat (length (jarray_elems a))) recordSize))
              byteP (Z.of_nat (length (jarray_elems a))) idxP idxLen recordSize 0 s3
            ≠ OutOfFuel) as Hne.
    { apply free_records_enough_fuel; [done|]. unfold records_visited.
      rewrite Z.sub_0_r. lia. }
    rewrite (free_records_more_fuel _ _ fuel _ _ _ _ _ _ _ Hne) by lia.
    done. }
  split.
  - apply bind_fuel; [apply GetArrayLength_fuel|].
    intros idxLen s1 (b & _ & _ & ->)%GetArrayLength_Ret.
    apply bind_fuel; [apply GetArrayLength_fuel|]. intros bufLen s1 Hlen.
    pose proof Hlen as (a & _ & _ & ->)%GetArrayLength_Ret.
    apply bind_fuel; [apply pin_fuel|]. intros [idxP|] s1 Hp1; [|done].
    apply bind_fuel; [apply pin_fuel|]. intros [byteP|] s2 Hp2.
    + apply bind_fuel; [by eapply Hloop|]. intros _ s3 _.
      apply bind_fuel; [apply release_fuel|]. intros _ s4 _.
      apply bind_fuel; [apply release_fuel|]. done.
    + apply bind_fuel; [apply release_fuel|]. done.
  - apply bind_ext. intros idxLen s1 (b & _ & _ & ->)%GetArrayLength_Ret.
    apply bind_ext. intros bufLen s1 Hlen.
    pose proof Hlen as (a & _ & _ & ->)%GetArrayLength_Ret.
    apply bind_ext. intros [idxP|] s1 Hp1; [|done].
    apply bind_ext. intros [byteP|] s2 Hp2; [|done].
    unfold bind at 1 4.
    by destruct (Hloop _ _ _ byteP idxP idxLen s2 Hlen eq_refl) as [-> _].
Qed.

(** Without the precondition the loop need not end: a record size of 0 on
    a non-empty buffer never moves the running offset. *)
Lemma free_records_zero_step W fuel mem bufLen idxLen ptr s :
  ptr < bufLen →
  free_records W fuel mem bufLen [] idxLen 0 ptr s = OutOfFuel.
Proof.
  intros Hlt. induction fuel as [|fuel IH]; [done|].
  simpl. rewrite (proj2 (Z.ltb_lt _ _) Hlt), take_nil, Z.add_0_r.
  unfold bind. simpl. exact IH.
Qed.

Example zero_record_size_diverges fuel :
  freeCompoundVLStr 8 fuel (Some 1%nat) 0 (Some 2%nat) no_slots = OutOfFuel.
Proof.
  unfold freeCompoundVLStr.
  erewrite (bind_run (GetArrayLength 2)) by reflexivity.
  erewrite (bind_run (GetArrayLength 1)) by reflexivity.
  erewrite (bind_run (GetPrimitiveArrayCritical 2)) by (vm_compute; reflexivity).
  cbv beta iota.
  erewrite (bind_run (GetPrimitiveArrayCritical 1)) by (vm_compute; reflexivity).
  cbv beta iota. unfold bind at 1.
  by rewrite free_records_zero_step.
Qed.

(** ** Which records are released *)

Lemma free_all_distinct ps h :
  NoDup ps → Forall (λ p, p ≠ 0 ∧ is_Some (h !! p)) ps →
  ∃ h', free_all ps h = Some h'
        ∧ dom h' = dom h ∖ list_to_set ps
        ∧ size h = (size h' + length ps)%nat.
Proof.
  revert h. induction ps as [|p ps IH]; intros h Hnd Hlive.
  - exists h. simpl. split; [done|]. split; [set_solver | lia].
  - apply NoDup_cons in Hnd as [Hp Hnd].
    apply Forall_cons in Hlive as [[Hnz [blk Hblk]] Hlive].
    simpl. rewrite (proj2 (Z.eqb_neq p 0) Hnz), Hblk.
    destruct (IH (delete p h) Hnd) as (h' & Hh' & Hdom & Hsize).
    { apply Forall_forall. intros q Hq.
      rewrite Forall_forall in Hlive. destruct (Hlive q Hq) as [Hqz Hqlive].
      split; [done|]. rewrite lookup_delete_ne; [done|]. by intros ->. }
    exists h'. split; [done|]. split.
    + rewrite Hdom, dom_delete_L. set_solver.
    + assert (size h ≠ 0%nat) by (apply (map_size_ne_0_lookup_2 h p); eauto).
      rewrite map_size_delete_Some in Hsize by eauto. simpl. lia.
Qed.

Lemma record_slots_in_bounds W mem (N : nat) R offs :
  Z.of_nat (length mem) = Z.of_nat N * R → 0 < R →
  Forall (λ o, 0 ≤ o ∧ o + Z.of_nat W ≤ R) offs →
  Forall (λ ofs, slot_in_bounds W mem ofs = true) (record_slots N R offs).
Proof.
  intros Hlen HR Hoffs. apply Forall_forall. intros ofs.
  unfold record_slots. rewrite list_elem_of_bind.
  intros (k & (o & -> & Ho)%list_elem_of_fmap & [_ Hk]%elem_of_seq).
  rewrite Forall_forall in Hoffs. specialize (Hoffs o Ho).
  unfold slot_in_bounds. apply andb_true_iff. split.
  - apply Z.leb_le. nia.
  - apply Z.leb_le. nia.
Qed.

(** The number of iterations is fixed by the exit test. *)
Lemma visits_exact (n N : nat) R :
  0 < R → (∀ k : nat, (k < n)%nat → Z.of_nat k * R < Z.of_nat N * R) →
  Z.of_nat N * R ≤ Z.of_nat n * R → n = N.
Proof.
  intros HR Hk Hstop. assert (N ≤ n)%nat by nia.
  destruct (decide (n = N)) as [|Hne]; [done|].
  specialize (Hk N). nia.
Qed.

Lemma visits_partial (n : nat) len R :
  0 < R → 0 ≤ len → len `mod` R ≠ 0 →
  (∀ k : nat, (k < n)%nat → Z.of_nat k * R < len) →
  len ≤ Z.of_nat n * R → n = S (Z.to_nat (len / R)).
Proof.
  intros HR Hlen Hmod Hk Hstop.
  pose proof (Z.div_mod len R ltac:(lia)) as Hdm.
  pose proof (Z.mod_pos_bound len R HR) as Hm.
  assert (0 ≤ len / R) as Hq by (apply Z.div_pos; lia).
  assert (Z.to_nat (len / R) < n)%nat as Hlt by nia.
  destruct (decide (n = S (Z.to_nat (len / R)))) as [|Hne]; [done|].
  specialize (Hk (S (Z.to_nat (len / R)))). nia.
Qed.

(** C4: on a buffer of exactly [N] records of [recordSize] bytes there are
    [N * |offsets|] (record, offset) pairs, and a call of [freeCompoundVLStr]
    that returns 0 has called [free] exactly once for each of them: records
    in the order 0 .. N-1 and, within a record, offsets in the order of the
    offset array.  When both arrays can be pinned, the offsets lie inside a
    record and the slots hold distinct live allocations, the call does return
    0, and exactly [N * |offsets|] allocations leave the native heap. *)
Theorem release_all_one_free_per_slot (ptr_size fuel : nat) (s : jvm)
    (buf idx : nat) (recordSize : Z) (N : nat) (mem offs : list Z) :
  java_heap s !! buf = Some (JBytes mem) →
  java_heap s !! idx = Some (JInts offs) →
  0 < recordSize →
  Z.of_nat (length mem) = Z.of_nat N * recordSize →
  let ps := slot_value ptr_size mem <$> record_slots N recordSize offs in
  length ps = (N * length offs)%nat
  ∧ (∀ s',
      freeCompoundVLStr ptr_size fuel (Some buf) recordSize (Some idx) s = Ret 0 s' →
      trace s' = trace s ++ [PinRequest idx true; PinRequest buf true]
                   ++ (Free <$> ps) ++ [PinRelease idx; PinRelease buf]
      ∧ free_all ps (native_heap s) = Some (native_heap s'))
  ∧ (buf ∉ unpinnable s → idx ∉ unpinnable s → (N < fuel)%nat →
     Forall (λ o, 0 ≤ o ∧ o + Z.of_nat ptr_size ≤ recordSize) offs →
     NoDup ps →
     Forall (λ p, p ≠ 0 ∧ is_Some (native_heap s !! p)) ps →
     ∃ s',
       freeCompoundVLStr ptr_size fuel (Some buf) recordSize (Some idx) s = Ret 0 s'
       ∧ dom (native_heap s') = dom (native_heap s) ∖ list_to_set ps
       ∧ size (native_heap s) = (size (native_heap s') + N * length offs)%nat).
Proof.
  intros Ha Hb HR Hlen ps.
  assert (length ps = (N * length offs)%nat) as Hps.
  { subst ps. by rewrite length_fmap, length_record_slots. }
  split; [done|]. split.
  - intros s' Hrun.
    eapply freeCompoundVLStr_Ret0 in Hrun; [|done..].
    destruct Hrun as (_ & _ & n & _ & Hk & Hstop & _ & h' & Hh' & ->).
    simpl in Hk, Hstop, Hh'.
    assert (n = N) as ->.
    { apply (visits_exact n N recordSize HR); [intros k ?; specialize (Hk k)|]; lia. }
    by split.
  - intros Hpb Hpi Hfuel Hoffs Hnd Hlive.
    destruct (free_all_distinct ps (native_heap s) Hnd Hlive)
      as (h' & Hh' & Hdom & Hsize).
    eexists. split; [|split].
    + eapply freeCompoundVLStr_Ret0; [done..|].
      split; [done|]. split; [done|]. exists N.
      split; [done|]. simpl. split; [intros k ?; nia|]. split; [lia|].
      split; [by apply record_slots_in_bounds|]. exists h'. by split.
    + done.
    + simpl. by rewrite <- Hps.
Qed.

(** C2 (amended): the loop stops once the running offset is no longer
    strictly below the length of the buffer, so that a record starts at every
    multiple of [recordSize] below that length.  When the length is not a
    multiple of [recordSize] the last of them is the partial tail, and it is
    processed like the others: a call that returns 0 has read and freed the
    slots of [len / recordSize + 1] records, all of them inside the buffer. *)
Theorem partial_tail_record_is_released (ptr_size fuel : nat) (s s' : jvm)
    (buf idx : nat) (recordSize : Z) (mem offs : list Z) :
  java_heap s !! buf = Some (JBytes mem) →
  java_heap s !! idx = Some (JInts offs) →
  0 < recordSize →
  Z.of_nat (length mem) `mod` recordSize ≠ 0 →
  freeCompoundVLStr ptr_size fuel (Some buf) recordSize (Some idx) s = Ret 0 s' →
  let tail := Z.to_nat (Z.of_nat (length mem) / recordSize) in
  let slots := record_slots (S tail) recordSize offs in
  Z.of_nat tail * recordSize < Z.of_nat (length mem)
  ∧ Z.of_nat (length mem) < Z.of_nat (S tail) * recordSize
  ∧ Forall (λ ofs, slot_in_bounds ptr_size mem ofs = true) slots
  ∧ trace s' = trace s ++ [PinRequest idx true; PinRequest buf true]
                 ++ (Free <$> (slot_value ptr_size mem <$> slots))
                 ++ [PinRelease idx; PinRelease buf]
  ∧ free_all (slot_value ptr_size mem <$> slots) (native_heap s)
    = Some (native_heap s').
Proof.
  intros Ha Hb HR Hmod Hrun tail slots.
  eapply freeCompoundVLStr_Ret0 in Hrun; [|done..].
  destruct Hrun as (_ & _ & n & _ & Hk & Hstop & Hbnd & h' & Hh' & ->).
  simpl in Hk, Hstop, Hbnd, Hh'.
  assert (n = S tail) as ->.
  { apply (visits_partial n (Z.of_nat (length mem)) recordSize); [done|lia|done..]. }
  split; [apply (Hk tail); lia|].
  split; [|by split].
  destruct (decide (Z.of_nat (length mem) = Z.of_nat (S tail) * recordSize)) as [E|];
    [|lia].
  rewrite E, Z.mod_mul in Hmod; lia.
Qed.

(** ** Encoding *)

Lemma mutf8_unit_length c : (1 ≤ length (mutf8_unit c))%nat.
Proof.
  unfold mutf8_unit. destruct (_ && _); [simpl; lia|].
  destruct (c <=? 0x7FF); simpl; lia.
Qed.

Lemma mutf8_length_ge str : (length str ≤ length (mutf8 str))%nat.
Proof.
  unfold mutf8. induction str as [|c str IH]; [done|].
  rewrite fmap_cons. simpl. rewrite length_app.
  pose proof (mutf8_unit_length c). lia.
Qed.

(** The call [GetStringUTFRegion(str, 0, GetStringUTFLength(str), p)] made
    by [compoundCpyVLStr]: the length passed counts bytes where code units
    are expected, so the region is rejected as soon as one unit takes more
    than one byte. *)
Lemma region_call str p s :
  GetStringUTFRegion str 0 (Z.of_nat (length (mutf8 str))) p s
  = if decide (length str < length (mutf8 str))%nat
    then emit StringIndexOutOfBounds s
    else match mutf8 str with
         | [] => Ret tt s
         | data => native_write p data s
         end.
Proof.
  unfold GetStringUTFRegion.
  pose proof (mutf8_length_ge str) as Hge.
  replace (0 <? 0) with false by done.
  replace (Z.of_nat (length (mutf8 str)) <? 0) with false
    by (symmetry; apply Z.ltb_ge; lia).
  simpl orb. case_decide as Hlt.
  - replace (_ <? _) with true by (symmetry; apply Z.ltb_lt; lia). done.
  - replace (_ <? _) with false by (symmetry; apply Z.ltb_ge; lia).
    rewrite Nat2Z.id. change (Z.to_nat 0) with 0%nat. rewrite drop_0.
    rewrite take_ge by lia. by destruct (mutf8 str).
Qed.

Lemma calloc_Ret n p s s' :
  calloc 1 n s = Ret p s' ↔
  (oom s = true ∧ p = 0 ∧ s' = set_trace (trace s ++ [Calloc n 0]) s)
  ∨ (oom s = false ∧ p = Z.pos (brk s)
     ∧ s' = set_trace (trace s ++ [Calloc n (Z.pos (brk s))])
              (set_brk (brk s + Z.to_pos n)
                 (set_native_heap
                    (<[Z.pos (brk s) := replicate (Z.to_nat n) 0]> (native_heap s)) s))).
Proof.
  unfold calloc. rewrite Z.mul_1_l. destruct (oom s); naive_solver.
Qed.

Lemma copy_defined_runs str s :
  copy_defined s str →
  ∃ p s2 s3,
    calloc 1 (Z.of_nat (length (mutf8 str))) s = Ret p s2
    ∧ GetStringUTFRegion str 0 (Z.of_nat (length (mutf8 str))) p s2 = Ret tt s3.
Proof.
  intros Hdef.
  destruct (decide (length str < length (mutf8 str))%nat) as [Hlt|Hge].
  { destruct (calloc 1 (Z.of_nat (length (mutf8 str))) s) as [p s2| |] eqn:E;
      [|unfold calloc in E; by destruct (oom s)..].
    exists p, s2. eexists. split; [done|].
    rewrite region_call. by rewrite decide_True. }
  destruct (mutf8 str) as [|d data] eqn:Hdata.
  { destruct (calloc 1 (Z.of_nat (length (@nil Z))) s) as [p s2| |] eqn:E;
      [|unfold calloc in E; by destruct (oom s)..].
    exists p, s2. eexists. split; [done|].
    pose proof (region_call str p s2) as Hr. rewrite Hdata in Hr.
    rewrite Hr. by rewrite decide_False. }
  destruct Hdef as [Hoom|[?|?]]; [|congruence|rewrite Hdata in *; lia].
  eexists _, _, _. split; [apply calloc_Ret; right; eauto|].
  pose proof (region_call str (Z.pos (brk s))) as Hr. rewrite Hdata in Hr.
  rewrite Hr, decide_False by done.
  unfold native_write. jvm_simpl.
  change (Z.pos (brk s) =? 0) with false. cbv iota. rewrite lookup_insert_eq.
  rewrite decide_True; [done|]. by rewrite length_replicate, Nat2Z.id.
Qed.

Lemma length_encode_ptr W p : length (encode_ptr W p) = W.
Proof. unfold encode_ptr. by rewrite length_fmap, length_seq. Qed.

(** A returning [compoundCpyVLStr] on a present text and buffer, in full. *)
Lemma compoundCpyVLStr_Ret W str buf ofs v s s' :
  compoundCpyVLStr W (Some str) (Some buf) ofs s = Ret v s' ↔
  ∃ p s2 s3 arr,
    calloc 1 (Z.of_nat (length (mutf8 str))) s = Ret p s2
    ∧ GetStringUTFRegion str 0 (Z.of_nat (length (mutf8 str))) p s2 = Ret tt s3
    ∧ java_heap s !! buf = Some arr
    ∧ ((buf ∈ unpinnable s ∧ v = -1
        ∧ s' = set_trace
                 (trace s3 ++ [PinRequest buf false;
                               JNIFatalError "compoundCpyVLStr:  buf not pinned"])
                 s3)
       ∨ ((buf ∉ unpinnable s) ∧ v = 0
          ∧ slot_in_bounds W (jarray_elems arr) ofs = true
          ∧ s' = set_trace (trace s3 ++ [PinRequest buf true; PinRelease buf])
                   (set_java_heap
                      (<[buf := jarray_with arr
                                  (take (Z.to_nat ofs) (jarray_elems arr)
                                     ++ encode_ptr W p
                                     ++ drop (Z.to_nat ofs + W) (jarray_elems arr))]>
                         (java_heap s)) s3))).
Proof.
  unfold compoundCpyVLStr. split.
  - intros (len & s1 & [<- <-]%ret_Ret & E)%bind_Ret.
    apply bind_Ret in E as (p & s2 & Hc & E).
    apply bind_Ret in E as ([] & s3 & Hr & E).
    pose proof (calloc_kept _ _ _ _ _ Hc) as Hk2.
    pose proof (GetStringUTFRegion_kept _ _ _ _ _ _ _ Hr) as Hk3.
    destruct (java_side_kept_trans _ _ _ Hk2 Hk3) as (Hjh & Hpn & Hun).
    apply bind_Ret in E as (byteP & s4 & (arr & Harr & Hpin)%pin_Ret & E).
    exists p, s2, s3, arr. split; [done|]. split; [done|].
    split; [congruence|].
    destruct Hpin as [(Hin & -> & ->)|(Hin & -> & ->)].
    + apply bind_Ret in E as (? & s5 & ->%emit_Ret & [<- <-]%ret_Ret).
      left. split; [congruence|]. split; [done|].
      apply jvm_eq; jvm_simpl; try done. by rewrite <- app_assoc.
    + apply bind_Ret in E as (mem & s5 & (Hb & -> & ->)%store_ptr_Ret & E).
      apply bind_Ret in E as (? & s6 & (a' & Ha' & ->)%release_Ret & [<- <-]%ret_Ret).
      jvm_simpl. assert (a' = arr) as -> by congruence.
      right. split; [congruence|]. split; [done|]. split; [done|].
      apply jvm_eq; jvm_simpl; try done.
      * by rewrite Hjh.
      * multiset_solver.
      * by rewrite <- app_assoc.
  - intros (p & s2 & s3 & arr & Hc & Hr & Harr & Hcase).
    pose proof (calloc_kept _ _ _ _ _ Hc) as Hk2.
    pose proof (GetStringUTFRegion_kept _ _ _ _ _ _ _ Hr) as Hk3.
    destruct (java_side_kept_trans _ _ _ Hk2 Hk3) as (Hjh & Hpn & Hun).
    apply bind_Ret. eexists _, s. split; [by apply ret_Ret|].
    apply bind_Ret. exists p, s2. split; [done|].
    apply bind_Ret. exists tt, s3. split; [done|].
    apply bind_Ret.
    destruct Hcase as [(Hin & -> & ->)|(Hin & -> & Hb & ->)].
    + eexists None, _. split.
      { apply pin_Ret. exists arr. split; [congruence|]. left.
        split; [congruence|]. done. }
      apply bind_Ret. eexists tt, _. split; [by apply emit_Ret|].
      apply ret_Ret. split; [done|].
      apply jvm_eq; jvm_simpl; try done. by rewrite <- app_assoc.
    + eexists (Some _), _. split.
      { apply pin_Ret. exists arr. split; [congruence|]. right.
        split; [congruence|]. done. }
      apply bind_Ret. eexists _, _. split; [by apply store_ptr_Ret|].
      apply bind_Ret. eexists tt, _. split.
      { apply release_Ret. exists arr. jvm_simpl. split; [congruence|done]. }
      apply ret_Ret. split; [done|].
      apply jvm_eq; jvm_simpl; try done.
      * by rewrite Hjh.
      * multiset_solver.
      * by rewrite <- app_assoc.
Qed.

(** The allocation made by an encode has the byte length of the text,
    whatever ends up in it. *)
Lemma encode_allocation_size W str buf ofs v s s' :
  oom s = false →
  compoundCpyVLStr W (Some str) (Some buf) ofs s = Ret v s' →
  ∃ blk, native_heap s' !! Z.pos (brk s) = Some blk
         ∧ length blk = length (mutf8 str).
Proof.
  intros Hoom (p & s2 & s3 & arr & Hc & Hr & _ & Hcase)%compoundCpyVLStr_Ret.
  apply calloc_Ret in Hc as [(? & _)|(_ & -> & ->)]; [congruence|].
  assert (∃ blk, native_heap s3 !! Z.pos (brk s) = Some blk
                 ∧ length blk = length (mutf8 str)) as Hblk.
  { rewrite region_call in Hr. case_decide.
    - apply emit_Ret in Hr as ->. jvm_simpl. rewrite lookup_insert_eq.
      eexists. split; [done|]. by rewrite length_replicate, Nat2Z.id.
    - destruct (mutf8 str) as [|d data] eqn:Hdata.
      + injection Hr as <-. jvm_simpl. rewrite lookup_insert_eq. by eexists.
      + unfold native_write in Hr. jvm_simpl.
        change (Z.pos (brk s) =? 0) with false in Hr. cbv iota in Hr.
        rewrite lookup_insert_eq in Hr.
        case_decide as Hfit; [|done]. injection Hr as <-. jvm_simpl.
        rewrite lookup_insert_eq. eexists. split; [done|].
        rewrite length_replicate, Nat2Z.id in Hfit.
        cbn [length app] in *.
        rewrite length_app, length_drop, length_replicate, Nat2Z.id.
        lia. }
  by destruct Hcase as [(_ & _ & ->)|(_ & _ & _ & ->)].
Qed.

(** A text with a unit of more than one byte is never copied: the region
    is rejected and the allocation stays zero-filled. *)
Lemma multibyte_text_not_copied W str buf ofs v s s' :
  oom s = false → (length str < length (mutf8 str))%nat →
  compoundCpyVLStr W (Some str) (Some buf) ofs s = Ret v s' →
  native_heap s' !! Z.pos (brk s) = Some (replicate (length (mutf8 str)) 0)
  ∧ StringIndexOutOfBounds ∈ trace s'.
Proof.
  intros Hoom Hlt (p & s2 & s3 & arr & Hc & Hr & _ & Hcase)%compoundCpyVLStr_Ret.
  apply calloc_Ret in Hc as [(? & _)|(_ & -> & ->)]; [congruence|].
  rewrite region_call, decide_True in Hr by done.
  apply emit_Ret in Hr as ->.
  destruct Hcase as [(_ & _ & ->)|(_ & _ & _ & ->)]; jvm_simpl;
    rewrite lookup_insert_eq, Nat2Z.id; (split; [done|]);
    rewrite !elem_of_app; left; right; apply list_elem_of_here.
Qed.

Lemma splice_frame (mem enc : list Z) (o : nat) :
  (o + length enc ≤ length mem)%nat →
  let new := take o mem ++ enc ++ drop (o + length enc) mem in
  length new = length mem
  ∧ ∀ i : nat, (i < o ∨ o + length enc ≤ i)%nat → new !! i = mem !! i.
Proof.
  intros Hle new. subst new. split.
  - rewrite !length_app, length_take, length_drop. lia.
  - intros i [Hi|Hi].
    + rewrite lookup_app_l by (rewrite length_take; lia).
      by rewrite lookup_take_lt.
    + rewrite lookup_app_r by (rewrite length_take; lia).
      rewrite lookup_app_r by (rewrite length_take; lia).
      rewrite lookup_drop, length_take. f_equal. lia.
Qed.

Lemma splice_read (mem enc : list Z) (o : nat) :
  (o ≤ length mem)%nat →
  take (length enc) (drop o (take o mem ++ enc ++ drop (o + length enc) mem)) = enc.
Proof.
  intros Hle. rewrite drop_app_length' by (rewrite length_take; lia).
  by rewrite take_app_length.
Qed.

Lemma slot_in_bounds_spec W mem ofs :
  slot_in_bounds W mem ofs = true ↔
  0 ≤ ofs ∧ ofs + Z.of_nat W ≤ Z.of_nat (length mem).
Proof.
  unfold slot_in_bounds. rewrite andb_true_iff, !Z.leb_le. done.
Qed.

(** ** Failure and frame of an encode *)

(** C6 (amended): each failure of [compoundCpyVLStr] that the call gets to
    report returns -1 and leaves every array as it was.  An absent text or
    buffer always ends so; a refused pin ends so whenever the call gets as far
    as the pin request, that is when the native copy made before it is
    defined (the allocation succeeded, or there was nothing to copy).
    Conversely a call that returns a status other than 0 returns -1, for one
    of the three causes, with the arrays untouched. *)
Theorem encode_failure_leaves_buffer (ptr_size : nat) (s : jvm) (ofs : Z) :
  (∀ buf, ∃ s',
      compoundCpyVLStr ptr_size None buf ofs s = Ret (-1) s'
      ∧ java_heap s' = java_heap s)
  ∧ (∀ str, ∃ s',
      compoundCpyVLStr ptr_size (Some str) None ofs s = Ret (-1) s'
      ∧ java_heap s' = java_heap s)
  ∧ (∀ str buf,
      buf ∈ unpinnable s → is_Some (java_heap s !! buf) → copy_defined s str →
      ∃ s', compoundCpyVLStr ptr_size (Some str) (Some buf) ofs s = Ret (-1) s'
            ∧ java_heap s' = java_heap s)
  ∧ (∀ str buf v s',
      compoundCpyVLStr ptr_size str buf ofs s = Ret v s' → v ≠ 0 →
      v = -1 ∧ java_heap s' = java_heap s
      ∧ (str = None ∨ buf = None ∨ ∃ b, buf = Some b ∧ b ∈ unpinnable s)).
Proof.
  split; [|split; [|split]].
  - intros buf. eexists. split; [reflexivity|done].
  - intros str. eexists. split; [reflexivity|done].
  - intros str buf Hin [arr Harr] Hdef.
    destruct (copy_defined_runs str s Hdef) as (p & s2 & s3 & Hc & Hr).
    pose proof (calloc_kept _ _ _ _ _ Hc) as Hk2.
    pose proof (GetStringUTFRegion_kept _ _ _ _ _ _ _ Hr) as Hk3.
    destruct (java_side_kept_trans _ _ _ Hk2 Hk3) as (Hjh & _ & _).
    eexists. split.
    + apply compoundCpyVLStr_Ret. exists p, s2, s3, arr.
      split; [done|]. split; [done|]. split; [done|]. left. by split.
    + done.
  - intros [str|] buf v s' Hrun Hv.
    2:{ injection Hrun as <- <-. split; [done|]. split; [done|]. by left. }
    destruct buf as [buf|].
    2:{ injection Hrun as <- <-. split; [done|]. split; [done|]. right. by left. }
    apply compoundCpyVLStr_Ret in Hrun
      as (p & s2 & s3 & arr & Hc & Hr & Harr & Hcase).
    pose proof (calloc_kept _ _ _ _ _ Hc) as Hk2.
    pose proof (GetStringUTFRegion_kept _ _ _ _ _ _ _ Hr) as Hk3.
    destruct (java_side_kept_trans _ _ _ Hk2 Hk3) as (Hjh & _ & _).
    destruct Hcase as [(Hin & -> & ->)|(_ & -> & _)]; [|done].
    split; [done|]. split; [done|]. right. right. eauto.
Qed.

(** C9: a successful [compoundCpyVLStr] at offset [ofs] rewrites the
    [ptr_size] bytes of the slot and nothing else: the buffer keeps its
    length and every byte outside [ofs, ofs + ptr_size), no other array
    changes, and the slot receives the bytes of the address [calloc]
    returned. *)
Theorem encode_touches_only_its_slot (ptr_size : nat) (s s' : jvm)
    (str : option jstring) (buf : option nat) (ofs : Z) :
  compoundCpyVLStr ptr_size str buf ofs s = Ret 0 s' →
  ∃ b arr new,
    buf = Some b ∧ java_heap s !! b = Some arr
    ∧ 0 ≤ ofs ∧ ofs + Z.of_nat ptr_size ≤ Z.of_nat (length (jarray_elems arr))
    ∧ java_heap s' = <[b := jarray_with arr new]> (java_heap s)
    ∧ length new = length (jarray_elems arr)
    ∧ (∀ i : nat,
        Z.of_nat i < ofs ∨ ofs + Z.of_nat ptr_size ≤ Z.of_nat i →
        new !! i = jarray_elems arr !! i)
    ∧ take ptr_size (drop (Z.to_nat ofs) new)
      = encode_ptr ptr_size (if oom s then 0 else Z.pos (brk s)).
Proof.
  intros Hrun.
  destruct str as [str|]; [|discriminate].
  destruct buf as [buf|]; [|discriminate].
  apply compoundCpyVLStr_Ret in Hrun
    as (p & s2 & s3 & arr & Hc & Hr & Harr & Hcase).
  assert (p = if oom s then 0 else Z.pos (brk s)) as Hp.
  { apply calloc_Ret in Hc as [(-> & -> & _)|(-> & -> & _)]; done. }
  destruct Hcase as [(_ & ? & _)|(_ & _ & Hb & ->)]; [done|].
  apply slot_in_bounds_spec in Hb as [Hlo Hhi].
  pose proof (splice_frame (jarray_elems arr) (encode_ptr ptr_size p)
                (Z.to_nat ofs)) as Hframe.
  pose proof (splice_read (jarray_elems arr) (encode_ptr ptr_size p)
                (Z.to_nat ofs)) as Hread.
  rewrite length_encode_ptr in Hframe, Hread.
  destruct Hframe as [Hlen Hsame]; [lia|].
  eexists buf, arr, _. split; [done|]. split; [done|].
  split; [done|]. split; [done|]. split; [done|]. split; [done|].
  split; [intros i Hi; apply Hsame; lia|].
  rewrite <- Hp. apply Hread. lia.
Qed.

Lemma decode_ptr_null W : decode_ptr (encode_ptr W 0) = 0.
Proof.
  unfold encode_ptr. generalize 0%nat.
  induction W as [|W IH]; intros j; [done|].
  simpl. rewrite IH, Z.shiftr_0_l. done.
Qed.

(** C10 (amended): the result of [calloc] is never tested.  When the
    allocation fails and there is nothing to copy - the text is empty, or it
    has a unit of more than one byte so that the region is rejected - a
    pinned, in-bounds encode stores the null address in the slot and returns
    0.  When there is something to copy, the copy goes through the null
    pointer and the call returns nothing at all. *)
Theorem encode_unchecked_allocation (ptr_size : nat) (s : jvm)
    (str : jstring) (buf : nat) (ofs : Z) (arr : jarray) :
  java_heap s !! buf = Some arr → buf ∉ unpinnable s →
  slot_in_bounds ptr_size (jarray_elems arr) ofs = true →
  oom s = true →
  (mutf8 str = [] ∨ (length str < length (mutf8 str))%nat →
   ∃ s' new,
     compoundCpyVLStr ptr_size (Some str) (Some buf) ofs s = Ret 0 s'
     ∧ java_heap s' !! buf = Some (jarray_with arr new)
     ∧ slot_value ptr_size new ofs = 0
     ∧ native_heap s' = native_heap s)
  ∧ (mutf8 str ≠ [] → length str = length (mutf8 str) →
     compoundCpyVLStr ptr_size (Some str) (Some buf) ofs s
     = Undefined WildPointer).
Proof.
  intros Harr Hpin Hb Hoom. split.
  - intros Hnothing.
    assert (copy_defined s str) as Hdef by (right; done).
    destruct (copy_defined_runs str s Hdef) as (p & s2 & s3 & Hc & Hr).
    pose proof Hc as [(_ & -> & ->)|(? & _)]%calloc_Ret; [|congruence].
    assert (native_heap s3 = native_heap s) as Hnh.
    { rewrite region_call in Hr. case_decide.
      - by apply emit_Ret in Hr as ->.
      - destruct Hnothing as [Hnil|?]; [|lia]. rewrite Hnil in Hr.
        by injection Hr as <-. }
    eexists _, _. split.
    + apply compoundCpyVLStr_Ret. eexists 0, _, s3, arr.
      split; [done|]. split; [done|]. split; [done|]. right.
      split; [done|]. split; [done|]. split; [done|]. reflexivity.
    + jvm_simpl. split; [by rewrite lookup_insert_eq|]. split; [|done].
      apply slot_in_bounds_spec in Hb as [Hlo Hhi].
      unfold slot_value.
      rewrite <- (length_encode_ptr ptr_size 0) at 1 3.
      rewrite splice_read by lia. apply decode_ptr_null.
  - intros Hdata Hlen. unfold compoundCpyVLStr.
    unfold bind at 1. unfold GetStringUTFLength at 1. unfold ret at 1.
    unfold bind at 1. unfold calloc at 1. rewrite Hoom.
    unfold bind at 1. rewrite Z.mul_1_l, region_call.
    rewrite decide_False by lia.
    destruct (mutf8 str); [done|]. done.
Qed.

(** ** The round trip on sample texts *)

(** C1: encoding "héllo" into a zeroed slot and decoding the slot gives the
    empty text back, not "héllo": the byte length 6 is passed where
    [GetStringUTFRegion] expects a number of code units, the region is
    rejected and nothing is copied into the allocation.  For "abc" the text
    is copied, but it fills the allocation and decoding reads past its
    end. *)
Theorem roundtrip_loses_text :
  (∃ s1 s2,
      compoundCpyVLStr 8 (Some hello) (Some 1%nat) 0 one_slot = Ret 0 s1
      ∧ trace s1 = [Calloc 6 4096; StringIndexOutOfBounds;
                    PinRequest 1 true; PinRelease 1]
      ∧ createVLStrFromCompound 8 (Some 1%nat) 0 s1 = Ret (Some []) s2)
  ∧ (∃ s1,
      compoundCpyVLStr 8 (Some abc) (Some 1%nat) 0 one_slot = Ret 0 s1
      ∧ createVLStrFromCompound 8 (Some 1%nat) 0 s1 = Undefined OutOfBounds).
Proof.
  split.
  - eexists _, _. split; [vm_compute; reflexivity|].
    split; vm_compute; reflexivity.
  - eexists. split; vm_compute; reflexivity.
Qed.

(** C3: the allocation made for "héllo" has the 6 bytes of its modified
    UTF-8 form, not the 5 of its code units, but it holds zeros and not the
    text; the allocation made for "abc" has its 3 bytes and holds them, with
    no room for a terminator after them. *)
Theorem encode_allocation_is_no_terminated_copy :
  (∃ s1,
      compoundCpyVLStr 8 (Some hello) (Some 1%nat) 0 one_slot = Ret 0 s1
      ∧ java_heap s1 !! 1%nat = Some (JBytes (encode_ptr 8 4096))
      ∧ mutf8 hello = [104; 195; 169; 108; 108; 111]
      ∧ native_heap s1 !! 4096 = Some [0; 0; 0; 0; 0; 0])
  ∧ (∃ s1,
      compoundCpyVLStr 8 (Some abc) (Some 1%nat) 0 one_slot = Ret 0 s1
      ∧ java_heap s1 !! 1%nat = Some (JBytes (encode_ptr 8 4096))
      ∧ native_heap s1 !! 4096 = Some [97; 98; 99]
      ∧ c_string [97; 98; 99] = None).
Proof.
  split; eexists; (split; [vm_compute; reflexivity|]);
    repeat split; vm_compute; reflexivity.
Qed.

(** With text kept in the allocation properly, the decoder gives "héllo"
    back: the loss above is the encoder's. *)
Example decode_of_terminated_copy :
  NewStringUTF 4096
    (set_native_heap {[4096 := mutf8 hello ++ [0]]} one_slot)
  = Ret (Some hello) (set_native_heap {[4096 := mutf8 hello ++ [0]]} one_slot).
Proof. vm_compute. reflexivity. Qed.

(** ** Instances *)

(** The tail of 8 bytes left by records of 12 bytes in a buffer of 20 is
    processed: the slot at offset 12 is read, its allocation is freed, and
    the call returns 0. *)
Lemma partial_tail_freed :
  (20 `mod` 12 ≠ 0)
  ∧ java_heap record_and_tail !! 1%nat = Some (JBytes record_and_tail_mem)
  ∧ length record_and_tail_mem = 20%nat
  ∧ slot_value 8 record_and_tail_mem 12 = 4097
  ∧ native_heap record_and_tail !! 4097 = Some [98]
  ∧ ∃ s',
      freeCompoundVLStr 8 3 (Some 1%nat) 12 (Some 2%nat) record_and_tail = Ret 0 s'
      ∧ trace s' = trace record_and_tail
                     ++ [PinRequest 2 true; PinRequest 1 true;
                         Free 4096; Free 4097;
                         PinRelease 2; PinRelease 1]
      ∧ native_heap s' !! 4097 = None.
Proof.
  split; [done|]. split; [vm_compute; reflexivity|].
  split; [reflexivity|]. split; [vm_compute; reflexivity|].
  split; [vm_compute; reflexivity|].
  eexists. split; [vm_compute; reflexivity|].
  split; vm_compute; reflexivity.
Qed.

Lemma partial_tail_record_is_released_witness :
  trace (exec (freeCompoundVLStr 8 3 (Some 1%nat) 12 (Some 2%nat)) record_and_tail)
  = trace record_and_tail
      ++ [PinRequest 2 true; PinRequest 1 true]
      ++ (Free <$> (slot_value 8 record_and_tail_mem <$> record_slots 2 12 [0]))
      ++ [PinRelease 2; PinRelease 1].
Proof.
  refine (proj1 (proj2 (proj2 (proj2
    (partial_tail_record_is_released 8 3 record_and_tail
       (exec (freeCompoundVLStr 8 3 (Some 1%nat) 12 (Some 2%nat)) record_and_tail)
       1 2 12 record_and_tail_mem [0] _ _ _ _ _))))).
  - vm_compute; reflexivity.
  - vm_compute; reflexivity.
  - lia.
  - vm_compute. discriminate.
  - vm_compute; reflexivity.
Defined.

Lemma release_all_one_free_per_slot_witness :
  ∃ s',
    freeCompoundVLStr 8 4 (Some 1%nat) 8 (Some 2%nat) three_records = Ret 0 s'
    ∧ trace s' = trace three_records
                   ++ [PinRequest 2 true; PinRequest 1 true]
                   ++ (Free <$> (slot_value 8 three_records_mem
                                   <$> record_slots 3 8 [0]))
                   ++ [PinRelease 2; PinRelease 1]
    ∧ size (native_heap three_records) = (size (native_heap s') + 3 * 1)%nat.
Proof.
  destruct (release_all_one_free_per_slot 8 4 three_records 1 2 8 3
              three_records_mem [0])
    as (_ & Htrace & Hruns).
  - vm_compute; reflexivity.
  - vm_compute; reflexivity.
  - lia.
  - vm_compute; reflexivity.
  - destruct Hruns as (s' & Hrun & _ & Hsize).
    + apply (bool_decide_unpack _). vm_compute. exact I.
    + apply (bool_decide_unpack _). vm_compute. exact I.
    + lia.
    + repeat constructor; simpl; lia.
    + apply (bool_decide_unpack _). vm_compute. exact I.
    + apply (bool_decide_unpack _). vm_compute. exact I.
    + exists s'. split; [exact Hrun|].
      split; [exact (proj1 (Htrace s' Hrun))|exact Hsize].
Defined.

Lemma freeCompoundVLStr_terminates_witness :
  freeCompoundVLStr 8 3 (Some 1%nat) 12 (Some 2%nat) record_and_tail ≠ OutOfFuel.
Proof.
  apply (freeCompoundVLStr_terminates 8 record_and_tail (Some 1%nat) 12 (Some 2%nat)).
  - lia.
  - vm_compute. lia.
Defined.

(** An encode into bytes 4 .. 11 of a buffer of 16: the four bytes on either
    side stay, the eight of the slot become the address 4096. *)
Lemma encode_touches_only_its_slot_witness :
  java_heap (exec (compoundCpyVLStr 8 (Some abc) (Some 1%nat) 4) framed_slot)
    !! 1%nat
  = Some (JBytes ([1; 2; 3; 4] ++ encode_ptr 8 4096 ++ [13; 14; 15; 16]))
  ∧ ∃ b arr new,
      Some 1%nat = Some b ∧ java_heap framed_slot !! b = Some arr
      ∧ 0 ≤ 4 ∧ 4 + Z.of_nat 8 ≤ Z.of_nat (length (jarray_elems arr))
      ∧ java_heap (exec (compoundCpyVLStr 8 (Some abc) (Some 1%nat) 4) framed_slot)
        = <[b := jarray_with arr new]> (java_heap framed_slot)
      ∧ length new = length (jarray_elems arr)
      ∧ (∀ i : nat,
          Z.of_nat i < 4 ∨ 4 + Z.of_nat 8 ≤ Z.of_nat i →
          new !! i = jarray_elems arr !! i)
      ∧ take 8 (drop (Z.to_nat 4) new)
        = encode_ptr 8 (if oom framed_slot then 0 else Z.pos (brk framed_slot)).
Proof.
  split; [vm_compute; reflexivity|].
  apply (encode_touches_only_its_slot 8 framed_slot
           (exec (compoundCpyVLStr 8 (Some abc) (Some 1%nat) 4) framed_slot)
           (Some abc) (Some 1%nat) 4).
  vm_compute; reflexivity.
Defined.

(** With the allocator exhausted, encoding "a" writes through the null
    pointer and returns no status at all. *)
Lemma encode_crashes_when_allocation_fails :
  oom exhausted = true
  ∧ is_Some (java_heap exhausted !! 1%nat) ∧ (1%nat ∉ unpinnable exhausted)
  ∧ compoundCpyVLStr 8 (Some [97]) (Some 1%nat) 0 exhausted
    = Undefined WildPointer
  ∧ ¬ ∃ s', compoundCpyVLStr 8 (Some [97]) (Some 1%nat) 0 exhausted = Ret 0 s'.
Proof.
  split; [done|]. split; [by eexists|].
  split; [apply (bool_decide_unpack _); vm_compute; exact I|].
  split; [vm_compute; reflexivity|].
  intros [s' Hs']. vm_compute in Hs'. discriminate.
Qed.

Lemma encode_unchecked_allocation_witness :
  ∃ s' new,
    compoundCpyVLStr 8 (Some hello) (Some 1%nat) 0 exhausted = Ret 0 s'
    ∧ java_heap s' !! 1%nat = Some (jarray_with (JBytes (replicate 8 0)) new)
    ∧ slot_value 8 new 0 = 0
    ∧ native_heap s' = native_heap exhausted.
Proof.
  apply (encode_unchecked_allocation 8 exhausted hello 1 0 (JBytes (replicate 8 0))).
  - vm_compute; reflexivity.
  - apply (bool_decide_unpack _). vm_compute. exact I.
  - vm_compute; reflexivity.
  - reflexivity.
  - right. vm_compute. lia.
Defined.

(** With the allocator exhausted and the pin bound to be refused, encoding
    "abc" never gets to the pin request: the copy writes through the null
    pointer and no status, -1 or other, is returned. *)
Lemma encode_failure_without_status :
  oom exhausted_refused = true
  ∧ 1%nat ∈ unpinnable exhausted_refused
  ∧ is_Some (java_heap exhausted_refused !! 1%nat)
  ∧ compoundCpyVLStr 8 (Some abc) (Some 1%nat) 0 exhausted_refused
    = Undefined WildPointer
  ∧ ¬ ∃ s', compoundCpyVLStr 8 (Some abc) (Some 1%nat) 0 exhausted_refused
            = Ret (-1) s'.
Proof.
  split; [done|].
  split; [apply (bool_decide_unpack _); vm_compute; exact I|].
  split; [by eexists|].
  split; [vm_compute; reflexivity|].
  intros [s' Hs']. vm_compute in Hs'. discriminate.
Qed.

Lemma encode_failure_leaves_buffer_witness :
  ∃ s', compoundCpyVLStr 8 (Some abc) (Some 1%nat) 0 pin_refused = Ret (-1) s'
        ∧ java_heap s' = java_heap pin_refused.
Proof.
  apply (encode_failure_leaves_buffer 8 pin_refused 0).
  - apply (bool_decide_unpack _). vm_compute. exact I.
  - by eexists.
  - left. reflexivity.
Defined.

(** * Further properties *)

(** ** Pointers in slots *)

Lemma decode_encode_ptr W p :
  decode_ptr (encode_ptr W p) = p `mod` 2 ^ (8 * Z.of_nat W).
Proof.
  unfold encode_ptr.
  assert (∀ j : nat,
    decode_ptr ((λ i : nat, Z.land (Z.shiftr p (8 * Z.of_nat i)) 0xFF) <$> seq j W)
    = (p / 2 ^ (8 * Z.of_nat j)) `mod` 2 ^ (8 * Z.of_nat W)) as Hgen.
  { induction W as [|W IH]; intros j.
    - simpl. by rewrite Z.mod_1_r.
    - rewrite <- cons_seq, fmap_cons. unfold decode_ptr in *. simpl foldr.
      rewrite IH. change 0xFF with (Z.ones 8).
      rewrite Z.land_ones, Z.shiftr_div_pow2 by lia.
      replace (8 * Z.of_nat (S j)) with (8 * Z.of_nat j + 8) by lia.
      replace (8 * Z.of_nat (S W)) with (8 + 8 * Z.of_nat W) by lia.
      rewrite !Z.pow_add_r by lia.
      rewrite <- Z.div_div by lia.
      rewrite (Z.rem_mul_r _ (2 ^ 8)) by lia. done. }
  rewrite (Hgen 0%nat). change (8 * Z.of_nat 0) with 0.
  by rewrite Z.pow_0_r, Z.div_1_r.
Qed.

(** A slot read after it was written holds the address written. *)
Lemma slot_value_store W mem ofs p :
  slot_in_bounds W mem ofs = true → fits_pointer W p →
  slot_value W (take (Z.to_nat ofs) mem ++ encode_ptr W p
                  ++ drop (Z.to_nat ofs + W) mem) ofs = p.
Proof.
  intros [Hlo Hhi]%slot_in_bounds_spec Hfit. unfold slot_value.
  rewrite <- (length_encode_ptr W p) at 1 3.
  rewrite splice_read by lia.
  rewrite decode_encode_ptr. apply Z.mod_small, Hfit.
Qed.

(** ** Modified UTF-8 *)

Lemma lor_high_low a b n :
  0 ≤ n → 0 ≤ b < 2 ^ n → Z.lor (a * 2 ^ n) b = a * 2 ^ n + b.
Proof.
  intros Hn Hb.
  assert (Z.land (a * 2 ^ n) b = 0) as Hland.
  { apply Z.bits_inj'. intros m Hm. rewrite Z.land_spec, Z.bits_0.
    destruct (decide (m < n)) as [Hlt|Hge].
    - by rewrite Z.mul_pow2_bits_low.
    - rewrite <- (Z.mod_small b (2 ^ n)) by lia.
      rewrite Z.mod_pow2_bits_high by lia. apply andb_false_r. }
  rewrite <- Z.add_lor_land, Hland. lia.
Qed.

Lemma lor_lead2 x : 0 ≤ x < 32 → Z.lor 0xC0 x = 192 + x.
Proof. intros. apply (lor_high_low 6 x 5); lia. Qed.

Lemma lor_lead3 x : 0 ≤ x < 16 → Z.lor 0xE0 x = 224 + x.
Proof. intros. apply (lor_high_low 14 x 4); lia. Qed.

Lemma lor_cont x : 0 ≤ x < 64 → Z.lor 0x80 x = 128 + x.
Proof. intros. apply (lor_high_low 2 x 6); lia. Qed.

Lemma lor_shift6 a b : 0 ≤ b < 64 → Z.lor (a * 64) b = a * 64 + b.
Proof. intros. apply (lor_high_low a b 6); lia. Qed.

Lemma lor_shift12 a b : 0 ≤ b < 4096 → Z.lor (a * 4096) b = a * 4096 + b.
Proof. intros. apply (lor_high_low a b 12); lia. Qed.

Lemma mutf8_unit_bytes c :
  jchar c →
  mutf8_unit c
  = if decide (single_byte c) then [c]
    else if decide (c < 0x800) then [192 + c / 64; 128 + c `mod` 64]
    else [224 + c / 4096; 128 + (c / 64) `mod` 64; 128 + c `mod` 64].
Proof.
  intros [Hlo Hhi]. unfold mutf8_unit, single_byte.
  case_decide as H1.
  { by rewrite (proj2 (Z.leb_le 1 c)), (proj2 (Z.leb_le c 0x7F)) by lia. }
  assert ((1 <=? c) && (c <=? 0x7F) = false) as ->.
  { apply andb_false_iff. rewrite !Z.leb_gt. lia. }
  change 0x3F with (Z.ones 6).
  rewrite !Z.land_ones, !Z.shiftr_div_pow2 by lia.
  change (2 ^ 6) with 64. change (2 ^ 12) with 4096.
  case_decide as H2.
  - rewrite (proj2 (Z.leb_le c 0x7FF)) by lia.
    assert (0 ≤ c / 64 < 32) by (split; [apply Z.div_pos|apply Z.div_lt_upper_bound]; lia).
    pose proof (Z.mod_pos_bound c 64 ltac:(lia)).
    by rewrite lor_lead2, lor_cont.
  - rewrite (proj2 (Z.leb_gt c 0x7FF)) by lia.
    assert (0 ≤ c / 4096 < 16) by (split; [apply Z.div_pos|apply Z.div_lt_upper_bound]; lia).
    pose proof (Z.mod_pos_bound c 64 ltac:(lia)).
    pose proof (Z.mod_pos_bound (c / 64) 64 ltac:(lia)).
    by rewrite lor_lead3, !lor_cont.
Qed.

Lemma mutf8_unit_nonzero c : jchar c → Forall (λ b, b ≠ 0) (mutf8_unit c).
Proof.
  intros Hc. rewrite (mutf8_unit_bytes c Hc). destruct Hc as [Hlo Hhi].
  unfold single_byte. case_decide; [repeat constructor; lia|].
  pose proof (Z.mod_pos_bound c 64 ltac:(lia)).
  pose proof (Z.mod_pos_bound (c / 64) 64 ltac:(lia)).
  assert (0 ≤ c / 64) by (apply Z.div_pos; lia).
  assert (0 ≤ c / 4096) by (apply Z.div_pos; lia).
  case_decide; repeat constructor; lia.
Qed.

Lemma mutf8_decode_unit c rest :
  jchar c → mutf8_decode (mutf8_unit c ++ rest) = c :: mutf8_decode rest.
Proof.
  intros Hc. rewrite (mutf8_unit_bytes c Hc). destruct Hc as [Hlo Hhi].
  unfold single_byte. case_decide as H1.
  { simpl. by rewrite (proj2 (Z.ltb_lt c 0x80)) by lia. }
  pose proof (Z.mod_pos_bound c 64 ltac:(lia)) as Hm.
  pose proof (Z.mod_pos_bound (c / 64) 64 ltac:(lia)) as Hm2.
  case_decide as H2.
  - assert (0 ≤ c / 64 < 32) as Hq
      by (split; [apply Z.div_pos|apply Z.div_lt_upper_bound]; lia).
    cbn [app mutf8_decode].
    rewrite (proj2 (Z.ltb_ge (192 + c / 64) 0x80)) by lia.
    rewrite (proj2 (Z.ltb_lt (192 + c / 64) 0xE0)) by lia.
    f_equal. change 0x1F with (Z.ones 5). change 0x3F with (Z.ones 6).
    rewrite !Z.land_ones, Z.shiftl_mul_pow2 by lia.
    change (2 ^ 5) with 32. change (2 ^ 6) with 64.
    replace ((192 + c / 64) `mod` 32) with (c / 64)
      by (apply (Z.mod_unique_pos _ _ 6); lia).
    replace ((128 + c `mod` 64) `mod` 64) with (c `mod` 64)
      by (apply (Z.mod_unique_pos _ _ 2); lia).
    rewrite lor_shift6 by lia. pose proof (Z.div_mod c 64 ltac:(lia)). lia.
  - assert (0 ≤ c / 4096 < 16) as Hq
      by (split; [apply Z.div_pos|apply Z.div_lt_upper_bound]; lia).
    cbn [app mutf8_decode].
    rewrite (proj2 (Z.ltb_ge (224 + c / 4096) 0x80)) by lia.
    rewrite (proj2 (Z.ltb_ge (224 + c / 4096) 0xE0)) by lia.
    f_equal. change 0x0F with (Z.ones 4). change 0x3F with (Z.ones 6).
    rewrite !Z.land_ones, !Z.shiftl_mul_pow2 by lia.
    change (2 ^ 4) with 16. change (2 ^ 6) with 64.
    replace ((224 + c / 4096) `mod` 16) with (c / 4096)
      by (apply (Z.mod_unique_pos _ _ 14); lia).
    replace ((128 + (c / 64) `mod` 64) `mod` 64) with ((c / 64) `mod` 64)
      by (apply (Z.mod_unique_pos _ _ 2); lia).
    replace ((128 + c `mod` 64) `mod` 64) with (c `mod` 64)
      by (apply (Z.mod_unique_pos _ _ 2); lia).
    change (2 ^ 12) with 4096.
    rewrite lor_shift6 by lia. rewrite lor_shift12 by lia.
    pose proof (Z.div_mod c 64 ltac:(lia)).
    pose proof (Z.div_mod (c / 64) 64 ltac:(lia)).
    replace (c / 4096) with (c / 64 / 64) by (rewrite Z.div_div by lia; done).
    lia.
Qed.

(** [NewStringUTF] undoes the encoding of any string of code units. *)
Lemma mutf8_decode_mutf8 str : Forall jchar str → mutf8_decode (mutf8 str) = str.
Proof.
  unfold mutf8. induction 1 as [|c str Hc _ IH]; [done|].
  rewrite fmap_cons. simpl concat. by rewrite mutf8_decode_unit, IH.
Qed.

Lemma c_string_app bs rest :
  Forall (λ b, b ≠ 0) bs → c_string (bs ++ 0 :: rest) = Some bs.
Proof.
  induction 1 as [|b bs Hb _ IH]; [done|].
  simpl. rewrite (proj2 (Z.eqb_neq b 0) Hb), IH. done.
Qed.

Lemma c_string_none bs : Forall (λ b, b ≠ 0) bs → c_string bs = None.
Proof.
  induction 1 as [|b bs Hb _ IH]; [done|].
  simpl. rewrite (proj2 (Z.eqb_neq b 0) Hb), IH. done.
Qed.

Lemma mutf8_nonzero str : Forall jchar str → Forall (λ b, b ≠ 0) (mutf8 str).
Proof.
  unfold mutf8. induction 1 as [|c str Hc _ IH]; [constructor|].
  rewrite fmap_cons. simpl concat. apply Forall_app. split; [|done].
  by apply mutf8_unit_nonzero.
Qed.

Lemma mutf8_single_byte str : Forall single_byte str → mutf8 str = str.
Proof.
  unfold mutf8. induction 1 as [|c str Hc _ IH]; [done|].
  rewrite fmap_cons. simpl concat. rewrite IH. unfold mutf8_unit.
  destruct Hc. by rewrite (proj2 (Z.leb_le 1 c)), (proj2 (Z.leb_le c 0x7F)) by lia.
Qed.

(** ** What an encode allocates *)

(** The native side of an encode whose allocation succeeds, whatever its
    status: one new block at the address the allocator hands out, holding
    the text when every unit is a single byte and zeros otherwise. *)
Lemma encode_native_side W str buf ofs v s s' :
  oom s = false →
  compoundCpyVLStr W (Some str) (Some buf) ofs s = Ret v s' →
  native_heap s'
  = <[Z.pos (brk s) :=
        if decide (length str < length (mutf8 str))%nat
        then replicate (length (mutf8 str)) 0 else mutf8 str]> (native_heap s)
  ∧ brk s' = (brk s + Z.to_pos (Z.of_nat (length (mutf8 str))))%positive
  ∧ oom s' = false ∧ unpinnable s' = unpinnable s.
Proof.
  intros Hoom (p & s2 & s3 & arr & Hc & Hr & _ & Hcase)%compoundCpyVLStr_Ret.
  apply calloc_Ret in Hc as [(? & _)|(_ & -> & ->)]; [congruence|].
  assert (native_heap s3
          = <[Z.pos (brk s) :=
                if decide (length str < length (mutf8 str))%nat
                then replicate (length (mutf8 str)) 0 else mutf8 str]>
              (native_heap s)
          ∧ brk s3 = (brk s + Z.to_pos (Z.of_nat (length (mutf8 str))))%positive
          ∧ oom s3 = oom s ∧ unpinnable s3 = unpinnable s) as (H1 & H2 & H3 & H4).
  { rewrite region_call in Hr. case_decide as Hlt.
    - apply emit_Ret in Hr as ->. jvm_simpl. by rewrite Nat2Z.id.
    - destruct (mutf8 str) as [|d data] eqn:Hdata.
      + injection Hr as <-. jvm_simpl. done.
      + unfold native_write in Hr. jvm_simpl.
        change (Z.pos (brk s) =? 0) with false in Hr. cbv iota in Hr.
        rewrite lookup_insert_eq in Hr.
        case_decide as Hfit; [|done]. injection Hr as <-. jvm_simpl.
        rewrite insert_insert_eq, Nat2Z.id, drop_replicate, Nat.sub_diag.
        by rewrite app_nil_r. }
  destruct Hcase as [(_ & _ & ->)|(_ & _ & _ & ->)]; jvm_simpl;
    rewrite H1, H2, H3, H4; done.
Qed.

Lemma encode_stores_new_allocation_aux (ptr_size : nat) (s s' : jvm)
    (str : jstring) (buf : nat) (ofs : Z) :
  oom s = false → fits_pointer ptr_size (Z.pos (brk s)) →
  compoundCpyVLStr ptr_size (Some str) (Some buf) ofs s = Ret 0 s' →
  ∃ arr new blk,
    java_heap s !! buf = Some arr
    ∧ java_heap s' !! buf = Some (jarray_with arr new)
    ∧ slot_value ptr_size new ofs = Z.pos (brk s)
    ∧ native_heap s' = <[Z.pos (brk s) := blk]> (native_heap s)
    ∧ length blk = length (mutf8 str).
Proof.
  intros Hoom Hfit Hrun.
  destruct (encode_native_side _ _ _ _ _ _ _ Hoom Hrun) as (Hheap & _).
  apply compoundCpyVLStr_Ret in Hrun
    as (p & s2 & s3 & arr & Hc & Hr & Harr & Hcase).
  apply calloc_Ret in Hc as [(? & _)|(_ & -> & ->)]; [congruence|].
  destruct Hcase as [(_ & ? & _)|(_ & _ & Hb & ->)]; [done|].
  eexists arr, _, _. split; [done|]. jvm_simpl.
  split; [by rewrite lookup_insert_eq|].
  split; [by apply slot_value_store|].
  split; [exact Hheap|].
  case_decide; [by rewrite length_replicate|done].
Qed.


(** X2: when the pin is refused after a successful allocation, the call
    returns -1 with the block it allocated still live: nothing frees it, and
    no array has changed to refer to it. *)
Theorem encode_leaks_on_refused_pin (ptr_size : nat) (s : jvm)
    (str : jstring) (buf : nat) (ofs : Z) :
  oom s = false → is_Some (java_heap s !! buf) → buf ∈ unpinnable s →
  ∃ s' blk,
    compoundCpyVLStr ptr_size (Some str) (Some buf) ofs s = Ret (-1) s'
    ∧ native_heap s' !! Z.pos (brk s) = Some blk
    ∧ length blk = length (mutf8 str)
    ∧ java_heap s' = java_heap s.
Proof.
  intros Hoom [arr Harr] Hin.
  destruct (copy_defined_runs str s (or_introl Hoom)) as (p & s2 & s3 & Hc & Hr).
  pose proof (calloc_kept _ _ _ _ _ Hc) as Hk2.
  pose proof (GetStringUTFRegion_kept _ _ _ _ _ _ _ Hr) as Hk3.
  destruct (java_side_kept_trans _ _ _ Hk2 Hk3) as (Hjh & _ & _).
  assert (compoundCpyVLStr ptr_size (Some str) (Some buf) ofs s
          = Ret (-1) (set_trace
                        (trace s3 ++ [PinRequest buf false;
                                      JNIFatalError "compoundCpyVLStr:  buf not pinned"])
                        s3)) as Hrun.
  { apply compoundCpyVLStr_Ret. exists p, s2, s3, arr.
    split; [done|]. split; [done|]. split; [done|]. left. by split. }
  destruct (encode_native_side _ _ _ _ _ _ _ Hoom Hrun) as (Hheap & _).
  eexists _, _. split; [exact Hrun|]. rewrite Hheap, lookup_insert_eq.
  split; [done|]. split; [|done].
  case_decide; [by rewrite length_replicate|done].
Qed.

(** X3: encoding into a slot that already holds a string does not release
    that string: after the second encode the first allocation is still live,
    and the slot holds the address of the second, a different one. *)
Theorem encode_again_keeps_previous (ptr_size : nat) (s s1 s2 : jvm)
    (str1 str2 : jstring) (buf : nat) (ofs : Z) :
  oom s = false → fits_pointer ptr_size (Z.pos (brk s1)) →
  compoundCpyVLStr ptr_size (Some str1) (Some buf) ofs s = Ret 0 s1 →
  compoundCpyVLStr ptr_size (Some str2) (Some buf) ofs s1 = Ret 0 s2 →
  ∃ arr new blk,
    java_heap s2 !! buf = Some (jarray_with arr new)
    ∧ slot_value ptr_size new ofs = Z.pos (brk s1)
    ∧ Z.pos (brk s1) ≠ Z.pos (brk s)
    ∧ native_heap s2 !! Z.pos (brk s) = Some blk
    ∧ length blk = length (mutf8 str1).
Proof.
  intros Hoom Hfit Hrun1 Hrun2.
  destruct (encode_native_side _ _ _ _ _ _ _ Hoom Hrun1) as (Hheap1 & Hbrk & Hoom1 & _).
  destruct (encode_stores_new_allocation_aux ptr_size s1 s2 str2 buf ofs Hoom1 Hfit Hrun2)
    as (arr & new & blk2 & _ & Hnew & Hslot & Hheap2 & _).
  assert (Z.pos (brk s1) ≠ Z.pos (brk s)) as Hne by (rewrite Hbrk; lia).
  eexists arr, new, _. split; [done|]. split; [done|]. split; [done|].
  rewrite Hheap2, lookup_insert_ne, Hheap1, lookup_insert_eq by done.
  split; [done|]. case_decide; [by rewrite length_replicate|done].
Qed.

(** ** Decoding *)

Lemma pin_release_same (X : gmultiset nat) b : (X ⊎ {[+ b +]}) ∖ {[+ b +]} = X.
Proof. multiset_solver. Qed.

(** [createVLStrFromCompound] on a buffer the VM pins, as one equation. *)
Lemma decode_pinned W buf ofs s arr :
  java_heap s !! buf = Some arr → buf ∉ unpinnable s →
  createVLStrFromCompound W (Some buf) ofs s
  = if slot_in_bounds W (jarray_elems arr) ofs then
      let s' := set_trace (trace s ++ [PinRequest buf true; PinRelease buf]) s in
      let p := slot_value W (jarray_elems arr) ofs in
      if p =? 0 then Ret None s'
      else match native_heap s !! p with
           | Some blk =>
             match c_string blk with
             | Some bs => Ret (Some (mutf8_decode bs)) s'
             | None => Undefined OutOfBounds
             end
           | None => Undefined WildPointer
           end
    else Undefined OutOfBounds.
Proof.
  intros Harr Hpin. unfold createVLStrFromCompound.
  erewrite bind_run; [|apply pin_Ret; exists arr; split; [done|]; right; done].
  unfold load_ptr. destruct (slot_in_bounds W (jarray_elems arr) ofs); [|done].
  erewrite bind_run by reflexivity.
  assert (∀ r : option (list Z),
    (ReleasePrimitiveArrayCritical buf (jarray_elems arr) 0 ;; ret r)
      (set_trace (trace s ++ [PinRequest buf true])
         (set_pinned (pinned s ⊎ {[+ buf +]}) s))
    = Ret r (set_trace (trace s ++ [PinRequest buf true; PinRelease buf]) s))
    as Hrel.
  { intros r.
    erewrite (bind_run _ _ _ tt); [|apply release_Ret; exists arr; split; [done|reflexivity]].
    unfold ret. f_equal. apply jvm_eq; jvm_simpl; try done.
    - by rewrite jarray_with_elems, insert_id.
    - apply pin_release_same.
    - by rewrite <- app_assoc. }
  cbv zeta. unfold bind at 1. unfold NewStringUTF.
  destruct (_ =? 0); [apply Hrel|]. jvm_simpl.
  destruct (native_heap s !! _) as [blk|]; [|done].
  destruct (c_string blk); [apply Hrel|done].
Qed.

Lemma decode_refused W buf ofs s arr :
  java_heap s !! buf = Some arr → buf ∈ unpinnable s →
  createVLStrFromCompound W (Some buf) ofs s
  = Ret None (set_trace
                (trace s ++ [PinRequest buf false;
                             JNIFatalError "createVLStrFromCompound:  buf not pinned"])
                s).
Proof.
  intros Harr Hpin. unfold createVLStrFromCompound.
  erewrite bind_run; [|apply pin_Ret; exists arr; split; [done|]; left; done].
  cbv beta iota. unfold h5JNIFatalError. erewrite (bind_run _ _ _ tt) by (by apply emit_Ret).
  unfold ret. f_equal. apply jvm_eq; jvm_simpl; try done. by rewrite <- app_assoc.
Qed.

(** X4: decoding reads and nothing else: whenever
    [createVLStrFromCompound] returns, with a string or with the null
    reference, every array and the whole native heap are as before the call
    and no pin is left. *)
Theorem decode_is_read_only (ptr_size : nat) (s s' : jvm)
    (buf : option nat) (ofs : Z) (r : option jstring) :
  createVLStrFromCompound ptr_size buf ofs s = Ret r s' →
  java_heap s' = java_heap s ∧ native_heap s' = native_heap s
  ∧ pinned s' = pinned s.
Proof.
  destruct buf as [buf|]; [|by intros [= _ <-]].
  intros Hrun.
  assert (∃ arr, java_heap s !! buf = Some arr) as [arr Harr].
  { unfold createVLStrFromCompound in Hrun.
    apply bind_Ret in Hrun as (? & ? & (arr & ? & _)%pin_Ret & _). eauto. }
  destruct (decide (buf ∈ unpinnable s)) as [Hin|Hin].
  - rewrite (decode_refused _ _ _ _ arr) in Hrun by done. by injection Hrun as _ <-.
  - rewrite (decode_pinned _ _ _ _ arr) in Hrun by done.
    destruct (slot_in_bounds _ _ _); [|done]. cbv zeta in Hrun.
    destruct (_ =? 0); [by injection Hrun as _ <-|].
    destruct (native_heap s !! _) as [blk|]; [|done].
    destruct (c_string blk); [by injection Hrun as _ <-|done].
Qed.

(** X5: when the slot holds the address of a native block that starts
    with the modified UTF-8 form of a string followed by a NUL,
    [createVLStrFromCompound] returns that string. *)
Theorem decode_terminated_text (ptr_size : nat) (s : jvm) (buf : nat) (ofs : Z)
    (arr : jarray) (str : jstring) (rest : list Z) :
  java_heap s !! buf = Some arr → buf ∉ unpinnable s →
  slot_in_bounds ptr_size (jarray_elems arr) ofs = true →
  slot_value ptr_size (jarray_elems arr) ofs ≠ 0 →
  native_heap s !! slot_value ptr_size (jarray_elems arr) ofs
  = Some (mutf8 str ++ 0 :: rest) →
  Forall jchar str →
  ∃ s', createVLStrFromCompound ptr_size (Some buf) ofs s = Ret (Some str) s'.
Proof.
  intros Harr Hpin Hb Hnz Hblk Hstr.
  rewrite (decode_pinned _ _ _ _ arr), Hb by done. cbv zeta.
  rewrite (proj2 (Z.eqb_neq _ _) Hnz), Hblk.
  rewrite c_string_app by (by apply mutf8_nonzero).
  rewrite mutf8_decode_mutf8 by done. eauto.
Qed.

(** X6: neither encode nor decode checks the offset.  With the buffer
    pinned, a slot that does not lie inside it is accessed all the same:
    the behaviour is undefined and no status is returned. *)
Theorem slot_offset_unchecked (ptr_size : nat) (s : jvm) (buf : nat) (ofs : Z)
    (arr : jarray) :
  java_heap s !! buf = Some arr → buf ∉ unpinnable s →
  slot_in_bounds ptr_size (jarray_elems arr) ofs = false →
  createVLStrFromCompound ptr_size (Some buf) ofs s = Undefined OutOfBounds
  ∧ ∀ str, copy_defined s str →
      compoundCpyVLStr ptr_size (Some str) (Some buf) ofs s = Undefined OutOfBounds.
Proof.
  intros Harr Hpin Hb. split.
  - by rewrite (decode_pinned _ _ _ _ arr), Hb.
  - intros str Hdef.
    destruct (copy_defined_runs str s Hdef) as (p & s2 & s3 & Hc & Hr).
    pose proof (calloc_kept _ _ _ _ _ Hc) as Hk2.
    pose proof (GetStringUTFRegion_kept _ _ _ _ _ _ _ Hr) as Hk3.
    destruct (java_side_kept_trans _ _ _ Hk2 Hk3) as (Hjh & _ & Hun).
    unfold compoundCpyVLStr.
    erewrite bind_run by reflexivity. erewrite bind_run by exact Hc.
    erewrite bind_run by exact Hr.
    erewrite bind_run;
      [|apply pin_Ret; exists arr; split; [congruence|]; right;
        split; [congruence|done]].
    cbv beta iota. unfold bind at 1, store_ptr. by rewrite Hb.
Qed.

(** Decoding the slot a successful encode has just written. *)
Lemma decode_after_encode W s s1 str buf ofs :
  oom s = false → fits_pointer W (Z.pos (brk s)) →
  compoundCpyVLStr W (Some str) (Some buf) ofs s = Ret 0 s1 →
  createVLStrFromCompound W (Some buf) ofs s1
  = match c_string (if decide (length str < length (mutf8 str))%nat
                    then replicate (length (mutf8 str)) 0 else mutf8 str) with
    | Some bs =>
      Ret (Some (mutf8_decode bs))
          (set_trace (trace s1 ++ [PinRequest buf true; PinRelease buf]) s1)
    | None => Undefined OutOfBounds
    end.
Proof.
  intros Hoom Hfit Hrun.
  destruct (encode_native_side _ _ _ _ _ _ _ Hoom Hrun) as (Hheap & _ & _ & Hun).
  apply compoundCpyVLStr_Ret in Hrun as (p & s2 & s3 & arr & Hc & _ & Harr & Hcase).
  apply calloc_Ret in Hc as [(? & _)|(_ & -> & _)]; [congruence|].
  destruct Hcase as [(_ & ? & _)|(Hpin & _ & Hb & Hs1)]; [done|].
  set (new := take (Z.to_nat ofs) (jarray_elems arr)
                ++ encode_ptr W (Z.pos (brk s))
                ++ drop (Z.to_nat ofs + W) (jarray_elems arr)) in *.
  assert (java_heap s1 !! buf = Some (jarray_with arr new)) as Hnew.
  { rewrite Hs1. jvm_simpl. by rewrite lookup_insert_eq. }
  assert (jarray_elems (jarray_with arr new) = new) as Hel by (by destruct arr).
  assert (slot_in_bounds W new ofs = true) as Hb'.
  { apply slot_in_bounds_spec. apply slot_in_bounds_spec in Hb as [Hlo Hhi].
    subst new. rewrite !length_app, length_take, length_drop, length_encode_ptr.
    lia. }
  rewrite (decode_pinned _ _ _ _ (jarray_with arr new)), Hel, Hb'
    by (rewrite ?Hun; done).
  cbv zeta. subst new. rewrite slot_value_store by done.
  change (Z.pos (brk s) =? 0) with false. cbv iota.
  by rewrite Hheap, lookup_insert_eq.
Qed.

(** X7: the round trip of any text with a unit of more than one byte: the
    encode returns 0, and decoding the slot it wrote returns the empty
    string. *)
Theorem roundtrip_multibyte_yields_empty (ptr_size : nat) (s s1 : jvm)
    (str : jstring) (buf : nat) (ofs : Z) :
  oom s = false → fits_pointer ptr_size (Z.pos (brk s)) →
  (length str < length (mutf8 str))%nat →
  compoundCpyVLStr ptr_size (Some str) (Some buf) ofs s = Ret 0 s1 →
  ∃ s2, createVLStrFromCompound ptr_size (Some buf) ofs s1 = Ret (Some []) s2.
Proof.
  intros Hoom Hfit Hlt Hrun.
  rewrite (decode_after_encode _ _ _ _ _ _ Hoom Hfit Hrun), decide_True by done.
  destruct (length (mutf8 str)) as [|n] eqn:Hn; [lia|]. simpl. eauto.
Qed.

(** X8: the round trip of any text made of single-byte units: the
    encode returns 0 with the text filling its allocation, and decoding the
    slot reads past the end of that allocation. *)
Theorem roundtrip_single_byte_overruns (ptr_size : nat) (s s1 : jvm)
    (str : jstring) (buf : nat) (ofs : Z) :
  oom s = false → fits_pointer ptr_size (Z.pos (brk s)) →
  Forall single_byte str →
  compoundCpyVLStr ptr_size (Some str) (Some buf) ofs s = Ret 0 s1 →
  native_heap s1 !! Z.pos (brk s) = Some str
  ∧ createVLStrFromCompound ptr_size (Some buf) ofs s1 = Undefined OutOfBounds.
Proof.
  intros Hoom Hfit Hsb Hrun.
  destruct (encode_native_side _ _ _ _ _ _ _ Hoom Hrun) as (Hheap & _).
  rewrite (decode_after_encode _ _ _ _ _ _ Hoom Hfit Hrun).
  rewrite (mutf8_single_byte str Hsb), decide_False in Hheap |- * by lia.
  split; [by rewrite Hheap, lookup_insert_eq|].
  rewrite c_string_none; [done|].
  eapply Forall_impl; [exact Hsb|]. unfold single_byte. intros; lia.
Qed.

(** ** Releasing *)

Lemma visits_spec len R :
  0 < R → 0 ≤ len →
  len ≤ Z.of_nat (records_visited len R) * R
  ∧ ∀ k : nat, (k < records_visited len R)%nat → Z.of_nat k * R < len.
Proof.
  intros HR Hlen. unfold records_visited.
  pose proof (Z.div_mod (len + R - 1) R ltac:(lia)) as Hdm.
  pose proof (Z.mod_pos_bound (len + R - 1) R HR) as Hm.
  assert (0 ≤ (len + R - 1) / R) as Hq by (apply Z.div_pos; lia).
  split.
  - rewrite Z2Nat.id by done. nia.
  - intros k Hk. apply Nat2Z.inj_lt in Hk. rewrite Z2Nat.id in Hk by done. nia.
Qed.

Lemma visits_unique (n : nat) len R :
  0 < R → 0 ≤ len →
  (∀ k : nat, (k < n)%nat → Z.of_nat k * R < len) →
  len ≤ Z.of_nat n * R → n = records_visited len R.
Proof.
  intros HR Hlen Hk Hstop.
  destruct (visits_spec len R HR Hlen) as [Hstop' Hk'].
  destruct (Nat.lt_trichotomy n (records_visited len R)) as [Hlt|[Heq|Hgt]];
    [|done|].
  - specialize (Hk' n Hlt). lia.
  - specialize (Hk _ Hgt). lia.
Qed.

Lemma record_slots_nil n R : record_slots n R [] = [].
Proof.
  unfold record_slots. generalize 0%nat.
  induction n as [|n IH]; intros j; [done|].
  by rewrite <- cons_seq, bind_cons, IH.
Qed.

Lemma free_all_nulls ps h : Forall (λ p, p = 0) ps → free_all ps h = Some h.
Proof. induction 1 as [|p ps -> _ IH]; [done|]. exact IH. Qed.

(** What a defined sequence of [free] calls says of the addresses freed. *)
Lemma free_all_inv ps h h' :
  free_all ps h = Some h' →
  NoDup (filter (λ p, p ≠ 0) ps)
  ∧ Forall (λ p, p ≠ 0 → is_Some (h !! p)) ps
  ∧ (∀ p, p ∈ ps → p ≠ 0 → h' !! p = None)
  ∧ (∀ q, q ∉ ps → h' !! q = h !! q).
Proof.
  revert h. induction ps as [|p ps IH]; intros h; simpl.
  - intros [= <-]. split; [constructor|]. split; [constructor|].
    split; [by intros p ?%elem_of_nil|done].
  - destruct (p =? 0) eqn:Hp.
    + apply Z.eqb_eq in Hp as ->. intros (Hnd & Hlive & Hgone & Hsame)%IH.
      rewrite filter_cons_False by naive_solver.
      split; [done|]. split; [constructor; [done|done]|]. split.
      * intros q [->|Hq]%elem_of_cons Hqz; [done|]. by apply Hgone.
      * intros q Hq. apply Hsame. by intros ?; apply Hq; right.
    + apply Z.eqb_neq in Hp.
      destruct (h !! p) as [blk|] eqn:Hblk; [|done].
      intros (Hnd & Hlive & Hgone & Hsame)%IH.
      assert (p ∉ ps) as Hnotin.
      { intros Hin. rewrite Forall_forall in Hlive.
        destruct (Hlive p Hin Hp) as [? Hl]. by rewrite lookup_delete_eq in Hl. }
      rewrite filter_cons_True by done.
      split.
      { apply NoDup_cons. split; [|done].
        by intros [_ ?]%list_elem_of_filter. }
      split.
      { constructor; [eauto|]. apply Forall_forall. intros q Hq Hqz.
        rewrite Forall_forall in Hlive. specialize (Hlive q Hq Hqz).
        rewrite lookup_delete_ne in Hlive; [done|]. by intros ->. }
      split.
      * intros q [->|Hq]%elem_of_cons Hqz; [|by apply Hgone].
        rewrite Hsame by done. apply lookup_delete_eq.
      * intros q Hq. rewrite Hsame by (by intros ?; apply Hq; right).
        apply lookup_delete_ne. intros ->. apply Hq. by left.
Qed.

Lemma release_refused_idx W fuel buf idx R s a b :
  java_heap s !! buf = Some a → java_heap s !! idx = Some b →
  idx ∈ unpinnable s →
  freeCompoundVLStr W fuel (Some buf) R (Some idx) s
  = Ret (-1) (set_trace
                (trace s ++ [PinRequest idx false;
                             JNIFatalError "freeCompoundVLStr:  vlIndices not pinned"])
                s).
Proof.
  intros Ha Hb Hin. unfold freeCompoundVLStr.
  erewrite bind_run by (apply GetArrayLength_Ret; eauto).
  erewrite bind_run by (apply GetArrayLength_Ret; eauto).
  erewrite bind_run; [|apply pin_Ret; exists b; split; [done|]; left; done].
  cbv beta iota. unfold h5JNIFatalError.
  erewrite (bind_run _ _ _ tt) by (by apply emit_Ret).
  unfold ret. f_equal. apply jvm_eq; jvm_simpl; try done. by rewrite <- app_assoc.
Qed.

Lemma release_refused_buf W fuel buf idx R s a b :
  java_heap s !! buf = Some a → java_heap s !! idx = Some b →
  idx ∉ unpinnable s → buf ∈ unpinnable s →
  freeCompoundVLStr W fuel (Some buf) R (Some idx) s
  = Ret (-1) (set_trace
                (trace s ++ [PinRequest idx true; PinRequest buf false;
                             PinRelease idx;
                             JNIFatalError "freeCompoundVLStr:  buf not pinned"])
                s).
Proof.
  intros Ha Hb Hni Hin. unfold freeCompoundVLStr.
  erewrite bind_run by (apply GetArrayLength_Ret; eauto).
  erewrite bind_run by (apply GetArrayLength_Ret; eauto).
  erewrite bind_run; [|apply pin_Ret; exists b; split; [done|]; right; done].
  cbv beta iota.
  erewrite bind_run; [|apply pin_Ret; exists a; split; [done|]; left; done].
  cbv beta iota.
  erewrite (bind_run _ _ _ tt); [|apply release_Ret; exists b; split; [done|reflexivity]].
  unfold h5JNIFatalError.
  erewrite (bind_run _ _ _ tt) by (by apply emit_Ret).
  unfold ret. f_equal. apply jvm_eq; jvm_simpl; try done.
  - by rewrite jarray_with_elems, insert_id.
  - apply pin_release_same.
  - by rewrite <- !app_assoc.
Qed.

(** With both arrays pinned the only status is 0. *)
Lemma release_pinned_status W fuel buf idx R s v s' :
  idx ∉ unpinnable s → buf ∉ unpinnable s →
  freeCompoundVLStr W fuel (Some buf) R (Some idx) s = Ret v s' → v = 0.
Proof.
  intros Hni Hnb E. unfold freeCompoundVLStr in E.
  apply bind_Ret in E as (idxLen & s1 & (? & _ & _ & ->)%GetArrayLength_Ret & E).
  apply bind_Ret in E as (bufLen & s1 & (? & _ & _ & ->)%GetArrayLength_Ret & E).
  apply bind_Ret in E as (idxP & s1 & (b & Hb & Hpin)%pin_Ret & E).
  destruct Hpin as [(? & _)|(_ & -> & ->)]; [done|].
  apply bind_Ret in E as (byteP & s2 & (a & Ha & Hpin)%pin_Ret & E).
  destruct Hpin as [(? & _)|(_ & -> & ->)]; [done|].
  apply bind_Ret in E as (? & s3 & _ & E).
  apply bind_Ret in E as (? & s6 & _ & E).
  by apply bind_Ret in E as (? & s7 & _ & [<- _]%ret_Ret).
Qed.

(** X9: when the VM refuses to pin either array, [freeCompoundVLStr]
    frees nothing and returns -1 after the fatal-error report; if the refusal
    is for the buffer, the pin it already holds on the offsets is released
    first.  Arrays, native heap and pins are as before the call. *)
Theorem release_pin_refused (ptr_size fuel : nat) (s : jvm) (buf idx : nat)
    (recordSize : Z) (a b : jarray) :
  java_heap s !! buf = Some a → java_heap s !! idx = Some b →
  idx ∈ unpinnable s ∨ buf ∈ unpinnable s →
  ∃ s',
    freeCompoundVLStr ptr_size fuel (Some buf) recordSize (Some idx) s = Ret (-1) s'
    ∧ native_heap s' = native_heap s ∧ java_heap s' = java_heap s
    ∧ pinned s' = pinned s
    ∧ trace s'
      = trace s
          ++ (if decide (idx ∈ unpinnable s)
              then [PinRequest idx false;
                    JNIFatalError "freeCompoundVLStr:  vlIndices not pinned"]
              else [PinRequest idx true; PinRequest buf false; PinRelease idx;
                    JNIFatalError "freeCompoundVLStr:  buf not pinned"]).
Proof.
  intros Ha Hb Href. case_decide as Hi.
  - eexists. split; [by eapply release_refused_idx|]. done.
  - destruct Href as [?|Hin]; [done|].
    eexists. split; [by eapply release_refused_buf|]. done.
Qed.

(** X10: [freeCompoundVLStr] never writes to an array: whenever it
    returns, the buffer still holds the addresses it held, now dangling, and
    the offsets are untouched. *)
Theorem release_keeps_arrays (ptr_size fuel : nat) (s s' : jvm)
    (buf idx : option nat) (recordSize v : Z) :
  freeCompoundVLStr ptr_size fuel buf recordSize idx s = Ret v s' →
  java_heap s' = java_heap s.
Proof.
  destruct buf as [buf|]; [|by intros [= _ <-]].
  destruct idx as [idx|]; [|by intros [= _ <-]].
  intros Hrun.
  assert (∃ a b, java_heap s !! buf = Some a ∧ java_heap s !! idx = Some b)
    as (a & b & Ha & Hb).
  { unfold freeCompoundVLStr in Hrun.
    apply bind_Ret in Hrun as (? & ? & (b & ? & _ & ->)%GetArrayLength_Ret & Hrun).
    apply bind_Ret in Hrun as (? & ? & (a & ? & _)%GetArrayLength_Ret & _). eauto. }
  destruct (decide (idx ∈ unpinnable s)) as [Hi|Hi].
  { rewrite (release_refused_idx _ _ _ _ _ _ a b) in Hrun by done.
    by injection Hrun as _ <-. }
  destruct (decide (buf ∈ unpinnable s)) as [Hu|Hu].
  { rewrite (release_refused_buf _ _ _ _ _ _ a b) in Hrun by done.
    by injection Hrun as _ <-. }
  pose proof (release_pinned_status _ _ _ _ _ _ _ _ Hi Hu Hrun) as ->.
  eapply freeCompoundVLStr_Ret0 in Hrun; [|done..].
  by destruct Hrun as (_ & _ & n & _ & _ & _ & _ & h' & _ & ->).
Qed.

(** A successful release over all the records the loop visits. *)
Lemma release_Ret0_visited W fuel buf idx R s s' mem offs :
  java_heap s !! buf = Some (JBytes mem) →
  java_heap s !! idx = Some (JInts offs) → 0 < R →
  freeCompoundVLStr W fuel (Some buf) R (Some idx) s = Ret 0 s' ↔
  (idx ∉ unpinnable s) ∧ (buf ∉ unpinnable s)
  ∧ (records_visited (Z.of_nat (length mem)) R < fuel)%nat
  ∧ let slots := record_slots (records_visited (Z.of_nat (length mem)) R) R offs in
    Forall (λ ofs, slot_in_bounds W mem ofs = true) slots
    ∧ ∃ h', free_all (slot_value W mem <$> slots) (native_heap s) = Some h'
            ∧ s' = set_trace
                     (trace s ++ [PinRequest idx true; PinRequest buf true]
                        ++ (Free <$> (slot_value W mem <$> slots))
                        ++ [PinRelease idx; PinRelease buf])
                     (set_native_heap h' s).
Proof.
  intros Ha Hb HR.
  rewrite (freeCompoundVLStr_Ret0 _ _ _ _ _ _ _ _ _ Ha Hb). simpl jarray_elems.
  destruct (visits_spec (Z.of_nat (length mem)) R HR ltac:(lia)) as [Hstop Hk].
  split.
  - intros (Hi & Hu & n & Hn & Hk' & Hstop' & Hrest).
    assert (n = records_visited (Z.of_nat (length mem)) R) as ->
      by (apply visits_unique; [done|lia|done..]).
    done.
  - intros (Hi & Hu & Hn & Hrest). split; [done|]. split; [done|].
    by exists (records_visited (Z.of_nat (length mem)) R).
Qed.

(** X11: with nothing to release - an empty buffer, whatever the record
    size, or an empty offset set with a positive record size -
    [freeCompoundVLStr] pins and unpins the two arrays, calls [free] not
    once and returns 0. *)
Theorem release_nothing_to_release (ptr_size fuel : nat) (s : jvm)
    (buf idx : nat) (recordSize : Z) (mem offs : list Z) :
  java_heap s !! buf = Some (JBytes mem) →
  java_heap s !! idx = Some (JInts offs) →
  buf ∉ unpinnable s → idx ∉ unpinnable s →
  (mem = [] ∧ (0 < fuel)%nat)
  ∨ (offs = [] ∧ 0 < recordSize
     ∧ (records_visited (Z.of_nat (length mem)) recordSize < fuel)%nat) →
  ∃ s',
    freeCompoundVLStr ptr_size fuel (Some buf) recordSize (Some idx) s = Ret 0 s'
    ∧ native_heap s' = native_heap s
    ∧ trace s' = trace s ++ [PinRequest idx true; PinRequest buf true;
                             PinRelease idx; PinRelease buf].
Proof.
  intros Ha Hb Hu Hi [[-> Hfuel]|(-> & HR & Hfuel)].
  - eexists. split; [|split].
    + eapply freeCompoundVLStr_Ret0; [done..|].
      split; [done|]. split; [done|]. exists 0%nat. split; [done|].
      split; [intros; lia|]. split; [simpl; lia|]. simpl.
      split; [constructor|]. eexists. split; [done|reflexivity].
    + done.
    + done.
  - eexists. split; [|split].
    + eapply release_Ret0_visited; [done..|].
      split; [done|]. split; [done|]. split; [done|]. simpl.
      rewrite record_slots_nil. split; [constructor|].
      eexists. split; [done|reflexivity].
    + done.
    + done.
Qed.

(** X12: slots that hold the null address are passed to [free] like the
    others and nothing happens: when every slot visited is null the call
    returns 0 and the native heap is as before. *)
Theorem release_null_slots (ptr_size fuel : nat) (s : jvm) (buf idx : nat)
    (recordSize : Z) (mem offs : list Z) :
  java_heap s !! buf = Some (JBytes mem) →
  java_heap s !! idx = Some (JInts offs) →
  buf ∉ unpinnable s → idx ∉ unpinnable s → 0 < recordSize →
  (records_visited (Z.of_nat (length mem)) recordSize < fuel)%nat →
  let slots :=
    record_slots (records_visited (Z.of_nat (length mem)) recordSize)
      recordSize offs in
  Forall (λ ofs, slot_in_bounds ptr_size mem ofs = true) slots →
  Forall (λ ofs, slot_value ptr_size mem ofs = 0) slots →
  ∃ s',
    freeCompoundVLStr ptr_size fuel (Some buf) recordSize (Some idx) s = Ret 0 s'
    ∧ native_heap s' = native_heap s
    ∧ trace s' = trace s ++ [PinRequest idx true; PinRequest buf true]
                   ++ replicate (length slots) (Free 0)
                   ++ [PinRelease idx; PinRelease buf].
Proof.
  intros Ha Hb Hu Hi HR Hfuel slots Hbnd Hnull.
  assert (slot_value ptr_size mem <$> slots = replicate (length slots) 0) as Hps.
  { clear Hbnd. induction Hnull as [|o l Ho _ IH]; [done|].
    rewrite fmap_cons, Ho, IH. done. }
  eexists. split; [|split].
  - eapply release_Ret0_visited; [done..|].
    split; [done|]. split; [done|]. split; [done|]. split; [done|].
    eexists. split; [|reflexivity].
    apply free_all_nulls. fold slots. rewrite Hps. by apply Forall_replicate.
  - done.
  - jvm_simpl. fold slots. by rewrite Hps, fmap_replicate.
Qed.

(** X13: a record size that is not positive makes the loop useless on any
    non-empty buffer: with both arrays pinned the call never returns,
    whatever the fuel - it runs on for ever or into undefined behaviour. *)
Theorem release_nonpositive_record_size (ptr_size fuel : nat) (s : jvm)
    (buf idx : nat) (recordSize : Z) (a b : jarray) :
  java_heap s !! buf = Some a → java_heap s !! idx = Some b →
  buf ∉ unpinnable s → idx ∉ unpinnable s →
  recordSize ≤ 0 → jarray_elems a ≠ [] →
  ∀ v s', freeCompoundVLStr ptr_size fuel (Some buf) recordSize (Some idx) s
          ≠ Ret v s'.
Proof.
  intros Ha Hb Hu Hi HR Hne v s' Hrun.
  pose proof (release_pinned_status _ _ _ _ _ _ _ _ Hi Hu Hrun) as ->.
  eapply freeCompoundVLStr_Ret0 in Hrun; [|done..].
  destruct Hrun as (_ & _ & n & _ & _ & Hstop & _).
  destruct (jarray_elems a); [done|]. simpl in Hstop. nia.
Qed.

(** X14: [freeCompoundVLStr] returns 0 only when the non-null addresses
    in the slots it visits are pairwise distinct and are all live blocks:
    an address held twice, or one that is not allocated, makes a [free]
    undefined. *)
Theorem release_needs_distinct_live (ptr_size fuel : nat) (s s' : jvm)
    (buf idx : nat) (recordSize : Z) (mem offs : list Z) :
  java_heap s !! buf = Some (JBytes mem) →
  java_heap s !! idx = Some (JInts offs) → 0 < recordSize →
  freeCompoundVLStr ptr_size fuel (Some buf) recordSize (Some idx) s = Ret 0 s' →
  let ps := slot_value ptr_size mem
              <$> record_slots (records_visited (Z.of_nat (length mem)) recordSize)
                    recordSize offs in
  NoDup (filter (λ p, p ≠ 0) ps)
  ∧ Forall (λ p, p ≠ 0 → is_Some (native_heap s !! p)) ps
  ∧ ∀ q, q ∉ ps → native_heap s' !! q = native_heap s !! q.
Proof.
  intros Ha Hb HR Hrun ps.
  eapply release_Ret0_visited in Hrun; [|done..].
  destruct Hrun as (_ & _ & _ & _ & h' & Hh' & ->).
  apply free_all_inv in Hh' as (Hnd & Hlive & _ & Hsame). done.
Qed.

(** X15: after a release the slots dangle: decoding a slot that was
    visited and held a non-null address dereferences a block that no longer
    exists. *)
Theorem decode_after_release (ptr_size fuel : nat) (s s' : jvm)
    (buf idx : nat) (recordSize ofs : Z) (mem offs : list Z) :
  java_heap s !! buf = Some (JBytes mem) →
  java_heap s !! idx = Some (JInts offs) → 0 < recordSize →
  freeCompoundVLStr ptr_size fuel (Some buf) recordSize (Some idx) s = Ret 0 s' →
  ofs ∈ record_slots (records_visited (Z.of_nat (length mem)) recordSize)
          recordSize offs →
  slot_value ptr_size mem ofs ≠ 0 →
  createVLStrFromCompound ptr_size (Some buf) ofs s' = Undefined WildPointer.
Proof.
  intros Ha Hb HR Hrun Hofs Hnz.
  eapply release_Ret0_visited in Hrun; [|done..].
  destruct Hrun as (_ & Hu & _ & Hbnd & h' & Hh' & ->).
  apply free_all_inv in Hh' as (_ & _ & Hgone & _).
  rewrite Forall_forall in Hbnd.
  rewrite (decode_pinned _ _ _ _ (JBytes mem)) by done.
  simpl jarray_elems. rewrite (Hbnd ofs Hofs). cbv zeta.
  rewrite (proj2 (Z.eqb_neq _ _) Hnz). jvm_simpl.
  rewrite Hgone; [done| |done].
  apply list_elem_of_fmap. eauto.
Qed.

(** X16: a string encoded into the one slot of a record is released by
    [freeCompoundVLStr] with that slot's offset: the call returns 0 and the
    native heap is back to what it was before the encode. *)
Theorem encode_then_release (ptr_size fuel : nat) (s s1 : jvm)
    (str : jstring) (buf idx : nat) (ofs : Z) (mem : list Z) :
  oom s = false → fits_pointer ptr_size (Z.pos (brk s)) →
  native_heap s !! Z.pos (brk s) = None →
  java_heap s !! buf = Some (JBytes mem) →
  java_heap s !! idx = Some (JInts [ofs]) →
  idx ∉ unpinnable s → (2 ≤ fuel)%nat →
  compoundCpyVLStr ptr_size (Some str) (Some buf) ofs s = Ret 0 s1 →
  ∃ s2,
    freeCompoundVLStr ptr_size fuel (Some buf) (Z.of_nat (length mem)) (Some idx) s1
    = Ret 0 s2
    ∧ native_heap s2 = native_heap s.
Proof.
  intros Hoom Hfit Hfresh Ha Hb Hi Hfuel Hrun.
  destruct (encode_native_side _ _ _ _ _ _ _ Hoom Hrun) as (Hheap & _ & _ & Hun).
  apply compoundCpyVLStr_Ret in Hrun as (p & s2 & s3 & arr & Hc & _ & Harr & Hcase).
  apply calloc_Ret in Hc as [(? & _)|(_ & -> & _)]; [congruence|].
  destruct Hcase as [(_ & ? & _)|(Hpin & _ & Hbnd & Hs1)]; [done|].
  assert (arr = JBytes mem) as -> by congruence. simpl jarray_elems in *.
  set (new := take (Z.to_nat ofs) mem ++ encode_ptr ptr_size (Z.pos (brk s))
                ++ drop (Z.to_nat ofs + ptr_size) mem) in *.
  assert (buf ≠ idx) as Hne by (intros ->; congruence).
  assert (java_heap s1 !! buf = Some (JBytes new)) as Ha1.
  { rewrite Hs1. jvm_simpl. by rewrite lookup_insert_eq. }
  assert (java_heap s1 !! idx = Some (JInts [ofs])) as Hb1.
  { rewrite Hs1. jvm_simpl. by rewrite lookup_insert_ne. }
  pose proof Hbnd as [Hlo Hhi]%slot_in_bounds_spec.
  assert (0 < ptr_size)%nat as HW.
  { destruct ptr_size; [|lia]. destruct Hfit as [_ Hlt]. simpl in Hlt. lia. }
  assert (length new = length mem) as Hlen.
  { subst new. rewrite !length_app, length_take, length_drop, length_encode_ptr. lia. }
  eexists. split.
  - eapply freeCompoundVLStr_Ret0; [done..|].
    rewrite Hun. split; [done|]. split; [done|]. exists 1%nat.
    split; [lia|]. simpl jarray_elems. rewrite Hlen.
    split; [intros k ?; assert (k = 0%nat) as -> by lia; lia|].
    split; [lia|]. cbv zeta.
    assert (record_slots 1 (Z.of_nat (length mem)) [ofs] = [ofs]) as ->.
    { unfold record_slots. simpl. by rewrite Z.add_0_l. }
    split.
    { constructor; [|constructor].
      apply slot_in_bounds_spec. rewrite Hlen. lia. }
    eexists. split; [|reflexivity].
    simpl. subst new. rewrite slot_value_store by done.
    change (Z.pos (brk s) =? 0) with false. cbv iota.
    rewrite Hheap, lookup_insert_eq. reflexivity.
  - jvm_simpl. rewrite ?Hheap. by rewrite delete_insert_id.
Qed.

(** ** Slots side by side *)

Lemma slot_value_frame W (mem new : list Z) (o : nat) :
  length new = length mem →
  (∀ i : nat, (o ≤ i < o + W)%nat → new !! i = mem !! i) →
  take W (drop o new) = take W (drop o mem).
Proof.
  intros Hlen Hsame. apply list_eq. intros i.
  destruct (decide (i < W)%nat) as [Hi|Hi].
  - rewrite !lookup_take_lt, !lookup_drop by done. apply Hsame. lia.
  - by rewrite !lookup_take_ge by lia.
Qed.

(** X17: [getPointerSize] is the stride of the slots: encoding into a slot
    that lies [getPointerSize] bytes or more away from another (on either
    side) leaves the address held by that other slot as it was, so that two
    encodes into such slots leave each slot with its own allocation. *)
Theorem slots_side_by_side (ptr_size : nat) (s s1 s2 : jvm)
    (str1 str2 : jstring) (buf : nat) (ofs1 ofs2 : Z) :
  oom s = false →
  fits_pointer ptr_size (Z.pos (brk s)) → fits_pointer ptr_size (Z.pos (brk s1)) →
  ofs1 + getPointerSize ptr_size ≤ ofs2 ∨ ofs2 + getPointerSize ptr_size ≤ ofs1 →
  compoundCpyVLStr ptr_size (Some str1) (Some buf) ofs1 s = Ret 0 s1 →
  compoundCpyVLStr ptr_size (Some str2) (Some buf) ofs2 s1 = Ret 0 s2 →
  ∃ arr,
    java_heap s2 !! buf = Some arr
    ∧ slot_value ptr_size (jarray_elems arr) ofs1 = Z.pos (brk s)
    ∧ slot_value ptr_size (jarray_elems arr) ofs2 = Z.pos (brk s1)
    ∧ Z.pos (brk s) ≠ Z.pos (brk s1).
Proof.
  intros Hoom Hfit1 Hfit2 Hapart Hrun1 Hrun2. unfold getPointerSize in Hapart.
  destruct (encode_native_side _ _ _ _ _ _ _ Hoom Hrun1) as (_ & Hbrk & Hoom1 & _).
  apply compoundCpyVLStr_Ret in Hrun1 as (p1 & ? & ? & arr & Hc1 & _ & Harr & Hcase1).
  apply calloc_Ret in Hc1 as [(? & _)|(_ & -> & _)]; [congruence|].
  destruct Hcase1 as [(_ & ? & _)|(_ & _ & Hb1 & Hs1)]; [done|].
  apply compoundCpyVLStr_Ret in Hrun2 as (p2 & ? & ? & arr1 & Hc2 & _ & Harr1 & Hcase2).
  apply calloc_Ret in Hc2 as [(? & _)|(_ & -> & _)]; [congruence|].
  destruct Hcase2 as [(_ & ? & _)|(_ & _ & Hb2 & Hs2)]; [done|].
  set (mem1 := take (Z.to_nat ofs1) (jarray_elems arr)
                 ++ encode_ptr ptr_size (Z.pos (brk s))
                 ++ drop (Z.to_nat ofs1 + ptr_size) (jarray_elems arr)) in *.
  assert (arr1 = jarray_with arr mem1) as ->.
  { rewrite Hs1 in Harr1. jvm_simpl. rewrite lookup_insert_eq in Harr1. congruence. }
  assert (jarray_elems (jarray_with arr mem1) = mem1) as Hel by (by destruct arr).
  rewrite Hel in *.
  set (mem2 := take (Z.to_nat ofs2) mem1 ++ encode_ptr ptr_size (Z.pos (brk s1))
                 ++ drop (Z.to_nat ofs2 + ptr_size) mem1) in *.
  exists (jarray_with (jarray_with arr mem1) mem2).
  split; [rewrite Hs2; jvm_simpl; by rewrite lookup_insert_eq|].
  assert (jarray_elems (jarray_with (jarray_with arr mem1) mem2) = mem2) as ->
    by (by destruct arr).
  pose proof Hb1 as [Hlo1 Hhi1]%slot_in_bounds_spec.
  pose proof Hb2 as [Hlo2 Hhi2]%slot_in_bounds_spec.
  split; [|split].
  - transitivity (slot_value ptr_size mem1 ofs1);
      [|by apply slot_value_store].
    unfold slot_value. f_equal.
    pose proof (splice_frame mem1 (encode_ptr ptr_size (Z.pos (brk s1)))
                  (Z.to_nat ofs2)) as Hframe.
    rewrite length_encode_ptr in Hframe.
    destruct Hframe as [Hlen Hsame]; [lia|].
    apply slot_value_frame; [done|]. intros i Hi. apply Hsame. lia.
  - by apply slot_value_store.
  - rewrite Hbrk. lia.
Qed.


(** ** Instances of the further properties *)


Lemma decode_is_read_only_witness :
  java_heap (exec (createVLStrFromCompound 8 (Some 1%nat) 0) after_hello)
  = java_heap after_hello
  ∧ native_heap (exec (createVLStrFromCompound 8 (Some 1%nat) 0) after_hello)
    = native_heap after_hello
  ∧ pinned (exec (createVLStrFromCompound 8 (Some 1%nat) 0) after_hello)
    = pinned after_hello.
Proof.
  apply (decode_is_read_only 8 after_hello _ (Some 1%nat) 0 (Some [])).
  vm_compute; reflexivity.
Defined.

Lemma decode_terminated_text_witness :
  ∃ s', createVLStrFromCompound 8 (Some 1%nat) 0 hello_stored = Ret (Some hello) s'.
Proof.
  apply (decode_terminated_text 8 hello_stored 1 0 (JBytes (encode_ptr 8 4096))
           hello []).
  - vm_compute; reflexivity.
  - by_computation.
  - vm_compute; reflexivity.
  - vm_compute. discriminate.
  - vm_compute; reflexivity.
  - repeat constructor; unfold jchar; lia.
Defined.

Lemma release_pin_refused_witness :
  ∃ s',
    freeCompoundVLStr 8 2 (Some 1%nat) 8 (Some 2%nat) release_refused = Ret (-1) s'
    ∧ native_heap s' = native_heap release_refused
    ∧ java_heap s' = java_heap release_refused
    ∧ pinned s' = pinned release_refused
    ∧ trace s'
      = trace release_refused
          ++ (if decide (2%nat ∈ unpinnable release_refused)
              then [PinRequest 2 false;
                    JNIFatalError "freeCompoundVLStr:  vlIndices not pinned"]
              else [PinRequest 2 true; PinRequest 1 false; PinRelease 2;
                    JNIFatalError "freeCompoundVLStr:  buf not pinned"]).
Proof.
  apply (release_pin_refused 8 2 release_refused 1 2 8
           (JBytes (replicate 8 0)) (JInts [0])).
  - vm_compute; reflexivity.
  - vm_compute; reflexivity.
  - right. by_computation.
Defined.

Lemma encode_leaks_on_refused_pin_witness :
  ∃ s' blk,
    compoundCpyVLStr 8 (Some abc) (Some 1%nat) 0 pin_refused = Ret (-1) s'
    ∧ native_heap s' !! Z.pos (brk pin_refused) = Some blk
    ∧ length blk = length (mutf8 abc)
    ∧ java_heap s' = java_heap pin_refused.
Proof.
  apply (encode_leaks_on_refused_pin 8 pin_refused abc 1 0).
  - reflexivity.
  - by eexists.
  - by_computation.
Defined.

Lemma encode_again_keeps_previous_witness :
  ∃ arr new blk,
    java_heap (exec (compoundCpyVLStr 8 (Some hello) (Some 1%nat) 0) after_abc)
      !! 1%nat = Some (jarray_with arr new)
    ∧ slot_value 8 new 0 = Z.pos (brk after_abc)
    ∧ Z.pos (brk after_abc) ≠ Z.pos (brk one_slot)
    ∧ native_heap (exec (compoundCpyVLStr 8 (Some hello) (Some 1%nat) 0) after_abc)
        !! Z.pos (brk one_slot) = Some blk
    ∧ length blk = length (mutf8 abc).
Proof.
  apply (encode_again_keeps_previous 8 one_slot after_abc _ abc hello 1 0).
  - reflexivity.
  - vm_compute. split; [discriminate|reflexivity].
  - vm_compute; reflexivity.
  - vm_compute; reflexivity.
Defined.

Lemma release_nothing_to_release_witness :
  ∃ s',
    freeCompoundVLStr 8 2 (Some 1%nat) 8 (Some 2%nat) no_slots = Ret 0 s'
    ∧ native_heap s' = native_heap no_slots
    ∧ trace s' = trace no_slots ++ [PinRequest 2 true; PinRequest 1 true;
                                    PinRelease 2; PinRelease 1].
Proof.
  apply (release_nothing_to_release 8 2 no_slots 1 2 8 (replicate 8 0) []).
  - vm_compute; reflexivity.
  - vm_compute; reflexivity.
  - by_computation.
  - by_computation.
  - right. split; [reflexivity|]. split; [lia|]. vm_compute. lia.
Defined.

Lemma release_null_slots_witness :
  ∃ s',
    freeCompoundVLStr 8 3 (Some 1%nat) 8 (Some 2%nat) null_slots = Ret 0 s'
    ∧ native_heap s' = native_heap null_slots
    ∧ trace s' = trace null_slots ++ [PinRequest 2 true; PinRequest 1 true]
                   ++ replicate
                        (length (record_slots
                                   (records_visited (Z.of_nat (length (replicate 16 0))) 8)
                                   8 [0]))
                        (Free 0)
                   ++ [PinRelease 2; PinRelease 1].
Proof.
  apply (release_null_slots 8 3 null_slots 1 2 8 (replicate 16 0) [0]).
  - vm_compute; reflexivity.
  - vm_compute; reflexivity.
  - by_computation.
  - by_computation.
  - lia.
  - vm_compute. lia.
  - by_computation.
  - by_computation.
Defined.

Lemma release_nonpositive_record_size_witness :
  ¬ ∃ v s', freeCompoundVLStr 8 5 (Some 1%nat) 0 (Some 2%nat) no_slots = Ret v s'.
Proof.
  intros (v & s' & Hrun). revert Hrun.
  apply (release_nonpositive_record_size 8 5 no_slots 1 2 0
           (JBytes (replicate 8 0)) (JInts [])).
  - vm_compute; reflexivity.
  - vm_compute; reflexivity.
  - by_computation.
  - by_computation.
  - lia.
  - vm_compute. discriminate.
Defined.

Lemma release_keeps_arrays_witness :
  java_heap three_released = java_heap three_records.
Proof.
  apply (release_keeps_arrays 8 4 three_records three_released
           (Some 1%nat) (Some 2%nat) 8 0).
  vm_compute; reflexivity.
Defined.

Lemma decode_after_release_witness :
  createVLStrFromCompound 8 (Some 1%nat) 8 three_released = Undefined WildPointer.
Proof.
  apply (decode_after_release 8 4 three_records three_released 1 2 8 8
           three_records_mem [0]).
  - vm_compute; reflexivity.
  - vm_compute; reflexivity.
  - lia.
  - vm_compute; reflexivity.
  - by_computation.
  - vm_compute. discriminate.
Defined.

Lemma release_needs_distinct_live_witness :
  NoDup (filter (λ p, p ≠ 0)
           (slot_value 8 three_records_mem
              <$> record_slots (records_visited (Z.of_nat (length three_records_mem)) 8)
                    8 [0]))
  ∧ Forall (λ p, p ≠ 0 → is_Some (native_heap three_records !! p))
      (slot_value 8 three_records_mem
         <$> record_slots (records_visited (Z.of_nat (length three_records_mem)) 8)
               8 [0])
  ∧ ∀ q, q ∉ (slot_value 8 three_records_mem
                <$> record_slots (records_visited (Z.of_nat (length three_records_mem)) 8)
                      8 [0]) →
         native_heap three_released !! q = native_heap three_records !! q.
Proof.
  apply (release_needs_distinct_live 8 4 three_records three_released 1 2 8
           three_records_mem [0]).
  - vm_compute; reflexivity.
  - vm_compute; reflexivity.
  - lia.
  - vm_compute; reflexivity.
Defined.

Lemma roundtrip_multibyte_yields_empty_witness :
  ∃ s2, createVLStrFromCompound 8 (Some 1%nat) 0 after_hello = Ret (Some []) s2.
Proof.
  apply (roundtrip_multibyte_yields_empty 8 one_slot after_hello hello 1 0).
  - reflexivity.
  - vm_compute. split; [discriminate|reflexivity].
  - vm_compute. lia.
  - vm_compute; reflexivity.
Defined.

Lemma roundtrip_single_byte_overruns_witness :
  native_heap after_abc !! Z.pos (brk one_slot) = Some abc
  ∧ createVLStrFromCompound 8 (Some 1%nat) 0 after_abc = Undefined OutOfBounds.
Proof.
  apply (roundtrip_single_byte_overruns 8 one_slot after_abc abc 1 0).
  - reflexivity.
  - vm_compute. split; [discriminate|reflexivity].
  - repeat constructor; unfold single_byte; lia.
  - vm_compute; reflexivity.
Defined.

Lemma slot_offset_unchecked_witness :
  createVLStrFromCompound 8 (Some 1%nat) 4 one_slot = Undefined OutOfBounds
  ∧ ∀ str, copy_defined one_slot str →
      compoundCpyVLStr 8 (Some str) (Some 1%nat) 4 one_slot = Undefined OutOfBounds.
Proof.
  apply (slot_offset_unchecked 8 one_slot 1 4 (JBytes (replicate 8 0))).
  - vm_compute; reflexivity.
  - by_computation.
  - vm_compute; reflexivity.
Defined.

Lemma encode_then_release_witness :
  ∃ s2,
    freeCompoundVLStr 8 2 (Some 1%nat) (Z.of_nat (length (replicate 8 0)))
      (Some 2%nat) (exec (compoundCpyVLStr 8 (Some abc) (Some 1%nat) 0) one_record)
    = Ret 0 s2
    ∧ native_heap s2 = native_heap one_record.
Proof.
  apply (encode_then_release 8 2 one_record _ abc 1 2 0 (replicate 8 0)).
  - reflexivity.
  - vm_compute. split; [discriminate|reflexivity].
  - vm_compute; reflexivity.
  - vm_compute; reflexivity.
  - vm_compute; reflexivity.
  - by_computation.
  - lia.
  - vm_compute; reflexivity.
Defined.

Lemma slots_side_by_side_witness :
  ∃ arr,
    java_heap (exec (compoundCpyVLStr 8 (Some hello) (Some 1%nat) 8)
                 (exec (compoundCpyVLStr 8 (Some abc) (Some 1%nat) 0) two_slots))
      !! 1%nat = Some arr
    ∧ slot_value 8 (jarray_elems arr) 0 = Z.pos (brk two_slots)
    ∧ slot_value 8 (jarray_elems arr) 8
      = Z.pos (brk (exec (compoundCpyVLStr 8 (Some abc) (Some 1%nat) 0) two_slots))
    ∧ Z.pos (brk two_slots)
      ≠ Z.pos (brk (exec (compoundCpyVLStr 8 (Some abc) (Some 1%nat) 0) two_slots)).
Proof.
  apply (slots_side_by_side 8 two_slots _ _ abc hello 1 0 8).
  - reflexivity.
  - vm_compute. split; [discriminate|reflexivity].
  - vm_compute. split; [discriminate|reflexivity].
  - left. vm_compute. discriminate.
  - vm_compute; reflexivity.
  - vm_compute; reflexivity.
Defined.

